(** * Trial evaluation of screen event detectors against human annotations

    A shallow embedding of [video699/video/annotated.py]: the matching policy
    of [AnnotatedSampledVideoScreen.matching_pages], the ground-truth screen
    filter [AnnotatedSampledVideoScreenDetector.detect], and the streaming
    evaluation loop [evaluate_event_detector].

    Python dictionaries and sets become [gmap] and [gset]; exceptions are
    explicit results; the two nested [for] loops of the evaluator are two
    structurally recursive functions that thread the loop state and write a
    log. *)

From Stdlib Require Import ZArith Lia.
From stdpp Require Import gmap strings list fin_maps fin_sets sorting.

Open Scope Z_scope.
Open Scope nat_scope.

(** ** Exceptions *)

(** The two exceptions the modelled code can raise: [KeyError] from a
    dictionary subscript or [del] on an absent key, and [AssertionError] from
    [assert num_successes <= num_trials]. *)
Inductive exn : Type :=
| KeyError
| AssertionError.

Inductive result (A : Type) : Type :=
| Returned (a : A)
| Raised (e : exn).
Arguments Returned {A} a.
Arguments Raised {A} e.

(** Sequencing stops at the first exception (stdpp's [x ← r; k] notation). *)
#[export] Instance result_bind : MBind result := λ A B k r,
  match r with
  | Returned a => k a
  | Raised e => Raised e
  end.

(** ** Ground-truth annotations *)

(** [_KeyRefAnnotations]: the page key and the similarity string read from
    the dataset. *)
Record KeyRef : Type := {
  key : string;
  similarity : string;
}.

(** An annotated screen. [keyrefs] is [screen_annotations.keyrefs.values()]:
    the key references in insertion order. [is_beyond_bounds] is the
    property of the same name of the screen's quadrangle. *)
Record Screen : Type := {
  condition : string;
  is_beyond_bounds : bool;
  keyrefs : list KeyRef;
}.

(** An annotated frame with [SCREENS[video.uri][frame.number]]. *)
Record Frame : Type := {
  number : Z;
  screens : list Screen;
}.

(** [AnnotatedSampledVideoScreenDetector.detect] on an annotated frame. The
    detector object is its two constructor arguments. *)
Definition detect (conditions : gset string) (beyond_bounds : bool)
    (frame : Frame) : list Screen :=
  filter (λ screen, bool_decide (condition screen ∈ conditions)
                    && (beyond_bounds || negb (is_beyond_bounds screen)))
         (screens frame).

Definition pristine_screen_detector : Frame → list Screen :=
  detect {[ "pristine" ]} true.

Definition nonpristine_screen_detector : Frame → list Screen :=
  detect ({[ "windowed" ]} ∪ {[ "obstacle" ]}) true.

Section Annotated.

(** Pages and screen identifiers are hashable Python objects whose classes
    are declared outside this module; they are taken as countable types. *)
Context {Page : Type} `{Countable Page}.
Context {ScreenId : Type} `{Countable ScreenId}.

(** [AnnotatedSampledVideo]: the sorted frame list [_frames] and the page
    index [PAGES[video.uri]]. *)
Record AnnotatedSampledVideo : Type := {
  frames : list Frame;
  pages_index : gmap string Page;
}.

(** [pages[keyref.key]] *)
Definition page_of_key (pages : gmap string Page) (k : string) : result Page :=
  match pages !! k with
  | Some page => Returned page
  | None => Raised KeyError
  end.

(** [[pages[keyref.key] for keyref in keyrefs if keyref.similarity == sim]] *)
Fixpoint pages_with_similarity (pages : gmap string Page) (sim : string)
    (krs : list KeyRef) : result (list Page) :=
  match krs with
  | [] => Returned []
  | keyref :: krs' =>
      if String.eqb (similarity keyref) sim then
        page ← page_of_key pages (key keyref) ;
        rest ← pages_with_similarity pages sim krs' ;
        Returned (page :: rest)
      else pages_with_similarity pages sim krs'
  end.

(** [AnnotatedSampledVideoScreen.matching_pages] *)
Definition matching_pages (pages : gmap string Page) (screen : Screen)
    : result (list Page * list Page * list Page) :=
  full_matches ← pages_with_similarity pages "full" (keyrefs screen) ;
  incremental_matches ←
    pages_with_similarity pages "incremental" (keyrefs screen) ;
  let closest_matches :=
    match full_matches with
    | [] => incremental_matches
    | _ :: _ => full_matches
    end in
  Returned (full_matches, incremental_matches, closest_matches).

(** ** Detector events and the belief state *)

(** The events of a [ScreenEventDetectorABC]. Each carries the number of the
    frame it is anchored at ([event.frame.number]) and [event.screen_id];
    appearance and content-change events carry [event.page], which may be
    [None]. [OtherScreenEvent] stands for an event of any other class, for
    which neither branch of the [isinstance] chain applies. *)
Inductive ScreenEvent : Type :=
| ScreenAppearedEvent (frame_number : Z) (screen_id : ScreenId)
    (page : option Page)
| ScreenChangedContentEvent (frame_number : Z) (screen_id : ScreenId)
    (page : option Page)
| ScreenDisappearedEvent (frame_number : Z) (screen_id : ScreenId)
| OtherScreenEvent (frame_number : Z) (screen_id : ScreenId).

Definition event_frame_number (event : ScreenEvent) : Z :=
  match event with
  | ScreenAppearedEvent n _ _ | ScreenChangedContentEvent n _ _
  | ScreenDisappearedEvent n _ | OtherScreenEvent n _ => n
  end.

Definition event_screen_id (event : ScreenEvent) : ScreenId :=
  match event with
  | ScreenAppearedEvent _ i _ | ScreenChangedContentEvent _ i _
  | ScreenDisappearedEvent _ i | OtherScreenEvent _ i => i
  end.

(** [detected_page_dict]: screen identifier to believed page or [None]. *)
Abbreviation belief := (gmap ScreenId (option Page)).

(** The [if isinstance ... elif isinstance ...] statement that closes the body
    of the event loop; the event is [None] for the end-of-stream marker.
    [del d[k]] raises [KeyError] when [k] is not a key of [d]. *)
Definition update_belief (event : option ScreenEvent)
    (detected_page_dict : belief) : result belief :=
  match event with
  | Some (ScreenAppearedEvent _ screen_id page)
  | Some (ScreenChangedContentEvent _ screen_id page) =>
      Returned (<[screen_id := page]> detected_page_dict)
  | Some (ScreenDisappearedEvent _ screen_id) =>
      match detected_page_dict !! screen_id with
      | Some _ => Returned (delete screen_id detected_page_dict)
      | None => Raised KeyError
      end
  | Some (OtherScreenEvent _ _) | None => Returned detected_page_dict
  end.

(** ** One trial *)

(** [set(detected_page_dict.values())]. A Python set holds any hashable
    value, [None] included, so the elements are [option Page]. *)
Definition detected_pages_of (detected_page_dict : belief)
    : gset (option Page) :=
  list_to_set (snd <$> map_to_list detected_page_dict).

(** [set(closest_matches)], as a set of the same element type. *)
Definition page_set (matches : list Page) : gset (option Page) :=
  list_to_set (Some <$> matches).

(** The [for screen in pristine_screens] loop, threading
    [pristine_matching_pages] and [detected_pages_match_every_screen]. *)
Fixpoint pristine_loop (pages : gmap string Page)
    (detected_pages : gset (option Page)) (pristine_screens : list Screen)
    (pristine_matching_pages : gset (option Page))
    (detected_pages_match_every_screen : bool)
    : result (gset (option Page) * bool) :=
  match pristine_screens with
  | [] => Returned (pristine_matching_pages, detected_pages_match_every_screen)
  | screen :: rest =>
      '(_, _, closest_matches) ← matching_pages pages screen ;
      let closest_matches := page_set closest_matches in
      let detected_pages_match_every_screen :=
        if bool_decide (closest_matches ≠ ∅)
           && bool_decide (detected_pages ∩ closest_matches = ∅)
        then false else detected_pages_match_every_screen in
      pristine_loop pages detected_pages rest
        (pristine_matching_pages ∪ closest_matches)
        detected_pages_match_every_screen
  end.

(** The body of the frame loop after the [break] test, up to the condition of
    the [if]: [true] for a successful trial. *)
Definition trial (pages : gmap string Page) (frame : Frame)
    (detected_page_dict : belief) : result bool :=
  let detected_pages := detected_pages_of detected_page_dict in
  let pristine_screens := pristine_screen_detector frame in
  let nonpristine_screens := nonpristine_screen_detector frame in
  '(pristine_matching_pages, detected_pages_match_every_screen) ←
    pristine_loop pages detected_pages pristine_screens ∅ true ;
  let detected_nonmatching_pages :=
    detected_pages ∖ pristine_matching_pages in
  Returned (detected_pages_match_every_screen
            && bool_decide (size detected_nonmatching_pages
                            ≤ length nonpristine_screens)).

(** ** The evaluation loop *)

(** What the run writes down. A [TrialEntry] stands for one of the two
    [LOGGER.info] calls: the frame tried, the belief state it was tried
    against, the verdict, and the two counters after the trial. An
    [UpdateEntry] marks the point where the update statement of an event has
    been executed, with the belief state it leaves. *)
Inductive LogEntry : Type :=
| TrialEntry (frame : Frame) (detected_page_dict : belief) (success : bool)
    (num_successes num_trials : nat)
| UpdateEntry (event : ScreenEvent) (detected_page_dict : belief).

(** [event is not None and frame.number >= event.frame.number] *)
Definition deferred (event : option ScreenEvent) (frame : Frame) : bool :=
  match event with
  | Some e => (number frame >=? event_frame_number e)%Z
  | None => false
  end.

(** The loop [for frame in chain(peeked_remaining_annotated_frames,
    remaining_annotated_frames)] for one event. [remaining] is the list of
    frames the chain still yields: the peeked frame, if any, followed by what
    the frame iterator has not produced yet. On [break] the frame at hand is
    put back in front; otherwise the list is consumed. *)
Fixpoint frame_loop (pages : gmap string Page) (event : option ScreenEvent)
    (detected_page_dict : belief) (num_trials : nat)
    (remaining : list Frame) (num_successes : nat)
    : list LogEntry * result (list Frame * nat) :=
  match remaining with
  | [] => ([], Returned ([], num_successes))
  | frame :: rest =>
      if deferred event frame then
        ([], Returned (frame :: rest, num_successes))
      else
        match trial pages frame detected_page_dict with
        | Raised e => ([], Raised e)
        | Returned true =>
            let num_successes := S num_successes in
            let entry :=
              TrialEntry frame detected_page_dict true num_successes
                num_trials in
            if bool_decide (num_successes ≤ num_trials) then
              let '(log, r) :=
                frame_loop pages event detected_page_dict num_trials rest
                  num_successes in
              (entry :: log, r)
            else ([entry], Raised AssertionError)
        | Returned false =>
            let entry :=
              TrialEntry frame detected_page_dict false num_successes
                num_trials in
            let '(log, r) :=
              frame_loop pages event detected_page_dict num_trials rest
                num_successes in
            (entry :: log, r)
        end
  end.

Definition update_entry (event : option ScreenEvent)
    (detected_page_dict : belief) : list LogEntry :=
  match event with
  | Some e => [UpdateEntry e detected_page_dict]
  | None => []
  end.

(** The loop [for event in chain(event_detector, (None,))], on the list of
    events still to come. It returns the loop state at exit. *)
Fixpoint event_loop (pages : gmap string Page) (num_trials : nat)
    (events : list (option ScreenEvent)) (remaining : list Frame)
    (detected_page_dict : belief) (num_successes : nat)
    : list LogEntry * result (list Frame * belief * nat) :=
  match events with
  | [] => ([], Returned (remaining, detected_page_dict, num_successes))
  | event :: events' =>
      match frame_loop pages event detected_page_dict num_trials remaining
              num_successes with
      | (log1, Raised e) => (log1, Raised e)
      | (log1, Returned (remaining', num_successes')) =>
          match update_belief event detected_page_dict with
          | Raised e => (log1, Raised e)
          | Returned detected_page_dict' =>
              let '(log2, r) :=
                event_loop pages num_trials events' remaining'
                  detected_page_dict' num_successes' in
              (log1 ++ update_entry event detected_page_dict' ++ log2, r)
          end
      end
  end.

(** [chain(event_detector, (None,))] *)
Definition with_end_marker (event_detector : list ScreenEvent)
    : list (option ScreenEvent) :=
  (Some <$> event_detector) ++ [None].

(** [return (num_successes, num_trials)], reached when the event loop is left
    normally. *)
Definition return_counts (num_trials : nat)
    (r : result (list Frame * belief * nat)) : result (nat * nat) :=
  '(_, _, num_successes) ← r ; Returned (num_successes, num_trials).

(** [evaluate_event_detector] together with the log of the run. *)
Definition run (annotated_video : AnnotatedSampledVideo)
    (event_detector : list ScreenEvent)
    : list LogEntry * result (nat * nat) :=
  let num_trials := length (frames annotated_video) in
  let '(log, r) :=
    event_loop (pages_index annotated_video) num_trials
      (with_end_marker event_detector) (frames annotated_video) ∅ 0 in
  (log, return_counts num_trials r).

Definition evaluate_event_detector (annotated_video : AnnotatedSampledVideo)
    (event_detector : list ScreenEvent) : result (nat * nat) :=
  (run annotated_video event_detector).2.

Definition evaluation_log (annotated_video : AnnotatedSampledVideo)
    (event_detector : list ScreenEvent) : list LogEntry :=
  (run annotated_video event_detector).1.

(** ** Reading the log *)

Definition entry_frame (entry : LogEntry) : option Frame :=
  match entry with
  | TrialEntry frame _ _ _ _ => Some frame
  | UpdateEntry _ _ => None
  end.

(** The frames tried, in the order of their trials. *)
Definition trial_frames (log : list LogEntry) : list Frame :=
  omap entry_frame log.

Definition entry_counters (entry : LogEntry) : option (nat * nat) :=
  match entry with
  | TrialEntry _ _ _ num_successes num_trials =>
      Some (num_successes, num_trials)
  | UpdateEntry _ _ => None
  end.

(** The values of [(num_successes, num_trials)] after each trial. *)
Definition counters (log : list LogEntry) : list (nat * nat) :=
  omap entry_counters log.

(** A log entry of a trial against the belief state [D]. *)
Definition tried_against (D : belief) (entry : LogEntry) : Prop :=
  match entry with
  | TrialEntry _ D' _ _ _ => D' = D
  | UpdateEntry _ _ => False
  end.

(** ** Conditions on the inputs *)

(** Every page key that [matching_pages] subscripts [pages] with is a key of
    [pages]. *)
Definition keys_resolve (pages : gmap string Page) (screen : Screen) : bool :=
  forallb
    (λ keyref,
       implb (String.eqb (similarity keyref) "full"
              || String.eqb (similarity keyref) "incremental")
             (bool_decide (is_Some (pages !! key keyref))))
    (keyrefs screen).

(** The dataset is consistent as far as the evaluation reads it: the key
    references of every pristine screen resolve. *)
Definition frame_resolves (pages : gmap string Page) (frame : Frame) : bool :=
  forallb (keys_resolve pages) (pristine_screen_detector frame).

Definition video_resolves (video : AnnotatedSampledVideo) : bool :=
  forallb (frame_resolves (pages_index video)) (frames video).

(** The event stream never reports the disappearance of a screen it has not
    reported (and not yet removed): [tracked] is the set of keys of the belief
    state. *)
Fixpoint disappearances_tracked (events : list ScreenEvent)
    (tracked : gset ScreenId) : bool :=
  match events with
  | [] => true
  | ScreenAppearedEvent _ i _ :: events'
  | ScreenChangedContentEvent _ i _ :: events' =>
      disappearances_tracked events' ({[ i ]} ∪ tracked)
  | ScreenDisappearedEvent _ i :: events' =>
      bool_decide (i ∈ tracked)
      && disappearances_tracked events' (tracked ∖ {[ i ]})
  | OtherScreenEvent _ _ :: events' => disappearances_tracked events' tracked
  end.

(** Frames in strictly increasing order of their numbers, as
    [sorted([...])] over the frames of one video leaves them. *)
Definition frames_increasing (fs : list Frame) : Prop :=
  Sorted (λ f g, (number f < number g)%Z) fs.

(** Events in non-decreasing order of the frames they are anchored at. *)
Definition events_in_frame_order (events : list ScreenEvent) : Prop :=
  Sorted (λ a b, (event_frame_number a ≤ event_frame_number b)%Z) events.

(** The set the specification describes for a trial: the distinct pages
    among the values of the belief state, [None] left out. *)
Definition nonnull_pages_spec (detected_page_dict : belief)
    : gset (option Page) :=
  list_to_set (filter (λ v, v ≠ None) (snd <$> map_to_list detected_page_dict)).

(** ** The matching relations of the docstring of [matching_pages] *)

(** [s ≈ p]: the screen fully matches the page. *)
Definition fully_matches (pages : gmap string Page) (screen : Screen)
    (page : Page) : Prop :=
  ∃ keyref, keyref ∈ keyrefs screen ∧ similarity keyref = "full"
            ∧ pages !! key keyref = Some page.

(** [s ∼ p]: the screen incrementally matches the page. *)
Definition incrementally_matches (pages : gmap string Page) (screen : Screen)
    (page : Page) : Prop :=
  ∃ keyref, keyref ∈ keyrefs screen ∧ similarity keyref = "incremental"
            ∧ pages !! key keyref = Some page.

(** The success condition as the specification words it, with the detected
    pages being the non-null pages among the values of the belief state:
    every pristine screen with a closest match has one of them detected, and
    the detected pages that are a closest match of no pristine screen are at
    most as many as the windowed and obstacle screens. *)
Definition trial_success_spec (pages : gmap string Page) (frame : Frame)
    (D : belief) : Prop :=
  (∀ screen full incr closest,
     screen ∈ screens frame → condition screen = "pristine" →
     matching_pages pages screen = Returned (full, incr, closest) →
     closest ≠ [] →
     ∃ page screen_id, page ∈ closest ∧ D !! screen_id = Some (Some page))
  ∧ ∃ extra : gset (option Page),
      (∀ v, v ∈ extra ↔
            v ∈ nonnull_pages_spec D
            ∧ ¬ ∃ screen full incr closest page,
                  screen ∈ screens frame ∧ condition screen = "pristine"
                  ∧ matching_pages pages screen
                    = Returned (full, incr, closest)
                  ∧ page ∈ closest ∧ v = Some page)
      ∧ size extra
        ≤ length (filter (λ screen, condition screen = "windowed"
                                    ∨ condition screen = "obstacle")
                    (screens frame)).

(** ** The belief state a frame is tried against *)

(** The belief state reached from [D] by the updates of the events that come,
    in stream order, before the first event anchored after frame number [n]:
    the events whose pass of the frame loop defers a frame of that number. *)
Fixpoint belief_at (events : list ScreenEvent) (D : belief) (n : Z)
    : result belief :=
  match events with
  | [] => Returned D
  | e :: events' =>
      if (n >=? event_frame_number e)%Z then
        D' ← update_belief (Some e) D ; belief_at events' D' n
      else Returned D
  end.

(** The trial of [frame] against that belief state is a success. *)
Definition succeeds_at (pages : gmap string Page) (events : list ScreenEvent)
    (D : belief) (frame : Frame) : bool :=
  match belief_at events D (number frame) with
  | Returned D' =>
      match trial pages frame D' with
      | Returned success => success
      | Raised _ => false
      end
  | Raised _ => false
  end.

(** A screen that shows no document page: none of its key references is a
    full or an incremental one. *)
Definition shows_no_page (screen : Screen) : bool :=
  forallb (λ keyref, negb (String.eqb (similarity keyref) "full"
                           || String.eqb (similarity keyref) "incremental"))
    (keyrefs screen).

(** The updates of a list of events, one after the other. *)
Fixpoint apply_events (events : list ScreenEvent) (D : belief)
    : result belief :=
  match events with
  | [] => Returned D
  | e :: events' =>
      D' ← update_belief (Some e) D ; apply_events events' D'
  end.

Definition entry_event (entry : LogEntry) : option ScreenEvent :=
  match entry with
  | TrialEntry _ _ _ _ _ => None
  | UpdateEntry e _ => Some e
  end.

(** The events whose update has been applied, in the order of the updates. *)
Definition applied_events (log : list LogEntry) : list ScreenEvent :=
  omap entry_event log.

(** The verdict a trial entry records is the verdict of the trial of its
    frame against its belief state. *)
Definition records_trial (pages : gmap string Page) (entry : LogEntry)
    : Prop :=
  match entry with
  | TrialEntry frame D success _ _ => trial pages frame D = Returned success
  | UpdateEntry _ _ => True
  end.

(** The belief state a trial entry records is the one [belief_at] gives for
    the number of its frame. *)
Definition records_belief_at (events : list ScreenEvent) (D : belief)
    (entry : LogEntry) : Prop :=
  match entry with
  | TrialEntry frame D' _ _ _ =>
      belief_at events D (number frame) = Returned D'
  | UpdateEntry _ _ => True
  end.

End Annotated.

(** ** The page index of a video *)

Section PageIndex.

Context {Page : Type}.

(** [page.key] *)
Context (page_key : Page → string).

(** The entry of [PAGES] for one video, [{page.key: page for document in
    video.documents.values() for page in document}]: [documents] lists the
    documents in the order of [video.documents.values()], each as the list
    of its pages in iteration order. A later page replaces an earlier one
    with the same key. *)
Definition build_pages (documents : list (list Page)) : gmap string Page :=
  foldl (λ pages page, <[page_key page := page]> pages) ∅ (concat documents).

End PageIndex.

(** ** The page detector *)

Section PageDetector.

Context {Page : Type} `{Countable Page}.

(** Screen objects are hashable; [screen_annotations] reads the annotations
    of a screen object, as [matching_pages] does through its frame and screen
    index. The second components of the pairs handed to the detector are not
    looked at. *)
Context {ScreenObject : Type} `{Countable ScreenObject}.
Context (screen_annotations : ScreenObject → Screen).
Context {Aux : Type}.

(** The loop [for screen, _ in chain(appeared_screens, existing_screens)] of
    [AnnotatedSampledVideoPageDetector.detect], threading [detected_pages].
    [next(iter(closest_matches))] is the first closest match, and
    [StopIteration] gives [None]. *)
Fixpoint page_detector_loop (pages : gmap string Page)
    (screens : list (ScreenObject * Aux))
    (detected_pages : gmap ScreenObject (option Page))
    : result (gmap ScreenObject (option Page)) :=
  match screens with
  | [] => Returned detected_pages
  | (screen, _) :: rest =>
      '(_, _, closest_matches) ←
        matching_pages pages (screen_annotations screen) ;
      let detected_page := head closest_matches in
      page_detector_loop pages rest (<[screen := detected_page]> detected_pages)
  end.

(** [AnnotatedSampledVideoPageDetector.detect] *)
Definition page_detector_detect (pages : gmap string Page) (frame : Frame)
    (appeared_screens existing_screens disappeared_screens
       : list (ScreenObject * Aux))
    : result (gmap ScreenObject (option Page)) :=
  page_detector_loop pages (appeared_screens ++ existing_screens) ∅.

End PageDetector.

(** ** The evaluation with sets in hash order *)

Section HashOrder.

Context {Page : Type} `{Countable Page}.
Context {ScreenId : Type} `{Countable ScreenId}.

(** A Python set holds its elements in an order that depends on their hashes,
    and through them on the hash seed of the process and on the addresses of
    the objects, so it differs from one run to the next. [arrange] stands for
    that order: every set the evaluation builds is a list without duplicates
    that [arrange] has put in some order of its own, which may depend on the
    elements and on the order in which they were put in. *)
Context (arrange : list (option Page) → list (option Page)).

(** [set(l)] *)
Definition hashed_set (l : list (option Page)) : list (option Page) :=
  arrange (remove_dups l).

(** [a & b] *)
Definition hashed_intersection (a b : list (option Page))
    : list (option Page) :=
  arrange (filter (λ x, x ∈ b) a).

(** [a - b] *)
Definition hashed_difference (a b : list (option Page))
    : list (option Page) :=
  arrange (filter (λ x, x ∉ b) a).

(** [a |= b] *)
Definition hashed_union (a b : list (option Page)) : list (option Page) :=
  arrange (a ++ filter (λ x, x ∉ a) b).

(** The truth value of a set: it has an element. *)
Definition hashed_truth (a : list (option Page)) : bool :=
  match a with
  | [] => false
  | _ :: _ => true
  end.

(** The list [l] holds the elements of the set [X], each once. *)
Definition holds (l : list (option Page)) (X : gset (option Page)) : Prop :=
  NoDup l ∧ ∀ x, x ∈ l ↔ x ∈ X.

(** The loop over the pristine screens, on sets in hash order. *)
Fixpoint pristine_loop_hashed (pages : gmap string Page)
    (detected_pages : list (option Page)) (pristine_screens : list Screen)
    (pristine_matching_pages : list (option Page))
    (detected_pages_match_every_screen : bool)
    : result (list (option Page) * bool) :=
  match pristine_screens with
  | [] => Returned (pristine_matching_pages, detected_pages_match_every_screen)
  | screen :: rest =>
      '(_, _, closest_matches) ← matching_pages pages screen ;
      let closest_matches := hashed_set (Some <$> closest_matches) in
      let detected_pages_match_every_screen :=
        if hashed_truth closest_matches
           && negb (hashed_truth
                      (hashed_intersection detected_pages closest_matches))
        then false else detected_pages_match_every_screen in
      pristine_loop_hashed pages detected_pages rest
        (hashed_union pristine_matching_pages closest_matches)
        detected_pages_match_every_screen
  end.

(** One trial, on sets in hash order. *)
Definition trial_hashed (pages : gmap string Page) (frame : Frame)
    (detected_page_dict : gmap ScreenId (option Page)) : result bool :=
  let detected_pages := hashed_set (snd <$> map_to_list detected_page_dict) in
  let pristine_screens := pristine_screen_detector frame in
  let nonpristine_screens := nonpristine_screen_detector frame in
  '(pristine_matching_pages, detected_pages_match_every_screen) ←
    pristine_loop_hashed pages detected_pages pristine_screens
      (hashed_set []) true ;
  let detected_nonmatching_pages :=
    hashed_difference detected_pages pristine_matching_pages in
  Returned (detected_pages_match_every_screen
            && bool_decide (length detected_nonmatching_pages
                            ≤ length nonpristine_screens)).

(** The frame loop and the event loop with such trials, without the log. *)
Fixpoint frame_loop_hashed (pages : gmap string Page)
    (event : option (@ScreenEvent Page ScreenId))
    (detected_page_dict : gmap ScreenId (option Page)) (num_trials : nat)
    (remaining : list Frame) (num_successes : nat)
    : result (list Frame * nat) :=
  match remaining with
  | [] => Returned ([], num_successes)
  | frame :: rest =>
      if deferred event frame then Returned (frame :: rest, num_successes)
      else
        success ← trial_hashed pages frame detected_page_dict ;
        if success : bool then
          let num_successes := S num_successes in
          if bool_decide (num_successes ≤ num_trials) then
            frame_loop_hashed pages event detected_page_dict num_trials rest
              num_successes
          else Raised AssertionError
        else
          frame_loop_hashed pages event detected_page_dict num_trials rest
            num_successes
  end.

Fixpoint event_loop_hashed (pages : gmap string Page) (num_trials : nat)
    (events : list (option (@ScreenEvent Page ScreenId))) (remaining : list Frame)
    (detected_page_dict : gmap ScreenId (option Page)) (num_successes : nat)
    : result (list Frame * gmap ScreenId (option Page) * nat) :=
  match events with
  | [] => Returned (remaining, detected_page_dict, num_successes)
  | event :: events' =>
      '(remaining', num_successes') ←
        frame_loop_hashed pages event detected_page_dict num_trials remaining
          num_successes ;
      detected_page_dict' ← update_belief event detected_page_dict ;
      event_loop_hashed pages num_trials events' remaining'
        detected_page_dict' num_successes'
  end.

(** [evaluate_event_detector] in a process whose sets are in the order
    [arrange] gives. *)
Definition evaluate_event_detector_hashed
    (annotated_video : @AnnotatedSampledVideo Page)
    (event_detector : list (@ScreenEvent Page ScreenId)) : result (nat * nat) :=
  let num_trials := length (frames annotated_video) in
  return_counts num_trials
    (event_loop_hashed (pages_index annotated_video) num_trials
       (with_end_marker event_detector) (frames annotated_video) ∅ 0).

End HashOrder.


(** * Example data

    A video of two frames over two pages, with string pages and numbered
    screen identifiers, and a one-frame video without screens. *)

Definition example_pages : gmap string string :=
  <["kx" := "pageX"]> (<["ky" := "pageY"]> ∅).

Definition example_pristine_screen : Screen :=
  {| condition := "pristine"; is_beyond_bounds := false;
     keyrefs := [ {| key := "kx"; similarity := "full" |};
                  {| key := "ky"; similarity := "incremental" |} ] |}.

Definition example_windowed_screen : Screen :=
  {| condition := "windowed"; is_beyond_bounds := false; keyrefs := [] |}.

Definition example_frame_1 : Frame :=
  {| number := 1; screens := [example_pristine_screen] |}.

Definition example_frame_2 : Frame :=
  {| number := 2;
     screens := [example_pristine_screen; example_windowed_screen] |}.

Definition example_video : @AnnotatedSampledVideo string :=
  {| frames := [example_frame_1; example_frame_2];
     pages_index := example_pages |}.

Definition example_appeared : @ScreenEvent string nat :=
  ScreenAppearedEvent 2 0 (Some "pageX").

Definition example_belief : gmap nat (option string) :=
  {[ 0 := Some "pageX" ]}.

Definition example_bare_frame : Frame := {| number := 1; screens := [] |}.

Definition example_bare_video : @AnnotatedSampledVideo string :=
  {| frames := [example_bare_frame]; pages_index := example_pages |}.

(** The two screens of the second example frame as screen objects, by
    number, and what the page detector believes on them. *)
Definition example_screen_annotations (screen : nat) : Screen :=
  match screen with
  | 0 => example_pristine_screen
  | _ => example_windowed_screen
  end.

Definition example_detected : gmap nat (option string) :=
  {[ 0 := Some "pageX"; 1 := None ]}.

(** The two example pages as the single pages of two documents. *)
Definition example_page_key (page : string) : string :=
  if String.eqb page "pageX" then "kx"
  else if String.eqb page "pageY" then "ky" else page.

Definition example_documents : list (list string) :=
  [["pageX"]; ["pageY"]].

(** * Properties *)

Section Properties.

Context {Page : Type} `{Countable Page}.
Context {ScreenId : Type} `{Countable ScreenId}.

Implicit Types (pages : gmap string Page) (D : gmap ScreenId (option Page)).
Implicit Types (event : option (@ScreenEvent Page ScreenId)).
Implicit Types (frame : Frame) (screen : Screen).
Implicit Types (video : @AnnotatedSampledVideo Page).
Implicit Types (event_detector : list (@ScreenEvent Page ScreenId)).

(** ** The result monad *)

Lemma bind_Returned {A B} (r : result A) (k : A → result B) b :
  r ≫= k = Returned b ↔ ∃ a, r = Returned a ∧ k a = Returned b.
Proof.
  destruct r as [a|e]; simpl.
  - split; [eauto | intros (a' & [= <-] & ?); done].
  - split; [done | intros (a' & [=] & _)].
Qed.

(** ** Matching pages *)

Lemma pages_with_similarity_elem pages sim krs ps :
  pages_with_similarity pages sim krs = Returned ps →
  ∀ p, p ∈ ps ↔ ∃ keyref, keyref ∈ krs ∧ similarity keyref = sim
                          ∧ pages !! key keyref = Some p.
Proof.
  revert ps. induction krs as [|kr krs IH]; intros ps Hps p; simpl in Hps.
  - injection Hps as <-. split; [intros ?%elem_of_nil; done|].
    intros (kr & ?%elem_of_nil & _); done.
  - destruct (String.eqb_spec (similarity kr) sim) as [Hsim|Hsim].
    + apply bind_Returned in Hps as (q & Hq & Hps).
      apply bind_Returned in Hps as (qs & Hqs & [= <-]).
      unfold page_of_key in Hq.
      destruct (pages !! key kr) as [q'|] eqn:Hlook; [|done].
      injection Hq as ->. rewrite elem_of_cons, (IH _ Hqs p). split.
      * intros [->|(kr' & ? & ? & ?)].
        -- exists kr. rewrite elem_of_cons. eauto.
        -- exists kr'. rewrite elem_of_cons. eauto.
      * intros (kr' & [->|?]%elem_of_cons & ? & ?).
        -- left. congruence.
        -- right. eauto.
    + rewrite (IH _ Hps p). split.
      * intros (kr' & ? & ? & ?). exists kr'. rewrite elem_of_cons. eauto.
      * intros (kr' & [->|?]%elem_of_cons & ? & ?); [done | eauto].
Qed.

Lemma pages_with_similarity_returns pages sim krs :
  (∀ keyref, keyref ∈ krs → similarity keyref = sim →
             is_Some (pages !! key keyref)) →
  ∃ ps, pages_with_similarity pages sim krs = Returned ps.
Proof.
  induction krs as [|kr krs IH]; intros Hres; simpl; [eauto|].
  destruct IH as [ps Hps].
  { intros kr' ? ?. apply Hres; [apply elem_of_cons|]; auto. }
  destruct (String.eqb_spec (similarity kr) sim) as [Hsim|Hsim]; [|eauto].
  destruct (Hres kr) as [p Hp]; [apply elem_of_cons; auto | done |].
  unfold page_of_key. rewrite Hp, Hps. simpl. eauto.
Qed.

Lemma keys_resolve_spec pages screen :
  keys_resolve pages screen = true →
  ∀ keyref, keyref ∈ keyrefs screen →
    similarity keyref = "full" ∨ similarity keyref = "incremental" →
    is_Some (pages !! key keyref).
Proof.
  unfold keys_resolve. rewrite forallb_forall. intros Hall kr Hin Hsim.
  apply list_elem_of_In, Hall in Hin.
  assert (String.eqb (similarity kr) "full"
          || String.eqb (similarity kr) "incremental" = true) as Hb.
  { destruct Hsim as [-> | ->]; reflexivity. }
  rewrite Hb in Hin. simpl in Hin. by apply bool_decide_eq_true in Hin.
Qed.

Lemma matching_pages_returns pages screen :
  keys_resolve pages screen = true →
  ∃ m, matching_pages pages screen = Returned m.
Proof.
  intros Hres. pose proof (keys_resolve_spec _ _ Hres) as Hk.
  destruct (pages_with_similarity_returns pages "full" (keyrefs screen))
    as [full Hfull]; [intros; apply Hk; auto|].
  destruct (pages_with_similarity_returns pages "incremental" (keyrefs screen))
    as [incr Hincr]; [intros; apply Hk; auto|].
  unfold matching_pages. rewrite Hfull, Hincr. simpl. eauto.
Qed.

Lemma matching_pages_inv pages screen full incr closest :
  matching_pages pages screen = Returned (full, incr, closest) →
  pages_with_similarity pages "full" (keyrefs screen) = Returned full
  ∧ pages_with_similarity pages "incremental" (keyrefs screen) = Returned incr
  ∧ closest = match full with [] => incr | _ :: _ => full end.
Proof.
  unfold matching_pages. intros Hm.
  apply bind_Returned in Hm as (f & Hf & Hm).
  apply bind_Returned in Hm as (i & Hi & Hm).
  injection Hm as <- <- <-. done.
Qed.

(** C6. For every screen whose key references resolve, [matching_pages]
    returns a triple in which [closest_matches] is [full_matches] when that
    list is non-empty and [incremental_matches] otherwise; the two are never
    merged: a page is a closest match exactly when the screen fully matches
    it, or fully matches no page at all and incrementally matches it. *)
Theorem closest_matches_fallback pages screen :
  keys_resolve pages screen = true →
  ∃ full incr closest,
    matching_pages pages screen = Returned (full, incr, closest)
    ∧ (full ≠ [] → closest = full)
    ∧ (full = [] → closest = incr)
    ∧ (∀ p, p ∈ full ↔ fully_matches pages screen p)
    ∧ (∀ p, p ∈ incr ↔ incrementally_matches pages screen p)
    ∧ (∀ p, p ∈ closest ↔
            fully_matches pages screen p
            ∨ (¬ (∃ p', fully_matches pages screen p')
               ∧ incrementally_matches pages screen p)).
Proof.
  intros Hres. destruct (matching_pages_returns _ _ Hres) as [[[full incr] closest] Hm].
  exists full, incr, closest. split; [done|].
  apply matching_pages_inv in Hm as (Hfull & Hincr & ->).
  pose proof (pages_with_similarity_elem _ _ _ _ Hfull) as Ef.
  pose proof (pages_with_similarity_elem _ _ _ _ Hincr) as Ei.
  split; [by destruct full|]. split; [by intros ->|].
  split; [exact Ef|]. split; [exact Ei|].
  intros p. destruct full as [|q full].
  - rewrite Ei. split.
    + intros Hp. right. split; [|done].
      intros [p' Hp']. apply Ef in Hp'. by apply elem_of_nil in Hp'.
    + intros [Hp|[_ Hp]]; [|done]. apply Ef in Hp. by apply elem_of_nil in Hp.
  - rewrite Ef. split; [auto|]. intros [Hp|[Hno _]]; [done|].
    exfalso. apply Hno. exists q. apply Ef, elem_of_cons. auto.
Qed.

(** ** The ground-truth screen filter *)

Lemma pristine_screen_detector_spec frame screen :
  screen ∈ pristine_screen_detector frame ↔
  screen ∈ screens frame ∧ condition screen = "pristine".
Proof.
  unfold pristine_screen_detector, detect. rewrite list_elem_of_filter.
  rewrite andb_True, bool_decide_spec, elem_of_singleton. simpl. tauto.
Qed.

Lemma nonpristine_screen_detector_spec frame :
  nonpristine_screen_detector frame =
  filter (λ screen, condition screen = "windowed"
                    ∨ condition screen = "obstacle") (screens frame).
Proof.
  unfold nonpristine_screen_detector, detect. apply list_filter_iff.
  intros screen. rewrite andb_True, bool_decide_spec, elem_of_union.
  rewrite !elem_of_singleton. simpl. tauto.
Qed.

(** ** One trial *)

Lemma elem_of_detected_pages_of D v :
  v ∈ detected_pages_of D ↔ ∃ screen_id, D !! screen_id = Some v.
Proof.
  unfold detected_pages_of. rewrite elem_of_list_to_set, list_elem_of_fmap.
  split.
  - intros ([i w] & -> & Hin). apply elem_of_map_to_list in Hin. eauto.
  - intros [i Hi]. exists (i, v). split; [done|].
    by apply elem_of_map_to_list.
Qed.

Lemma elem_of_page_set (matches : list Page) v :
  v ∈ page_set matches ↔ ∃ page, v = Some page ∧ page ∈ matches.
Proof. unfold page_set. by rewrite elem_of_list_to_set, list_elem_of_fmap. Qed.

Lemma page_set_empty (matches : list Page) :
  page_set matches = ∅ ↔ matches = [].
Proof.
  split; [|by intros ->].
  destruct matches as [|p ps]; [done|]. intros Hempty. exfalso.
  assert (Some p ∈ page_set (p :: ps)) as Hin.
  { apply elem_of_page_set. exists p. split; [done | apply elem_of_cons; auto]. }
  rewrite Hempty in Hin. by apply not_elem_of_empty in Hin.
Qed.

Lemma page_set_meets (detected_pages : gset (option Page)) matches :
  detected_pages ∩ page_set matches ≠ ∅ ↔
  ∃ page, page ∈ matches ∧ Some page ∈ detected_pages.
Proof.
  split.
  - intros [v Hv]%set_choose_L.
    apply elem_of_intersection in Hv as [Hd (p & -> & Hp)%elem_of_page_set].
    eauto.
  - intros (p & Hp & Hd) Hempty.
    assert (Some p ∈ detected_pages ∩ page_set matches) as Hin.
    { apply elem_of_intersection. split; [done|].
      apply elem_of_page_set. eauto. }
    rewrite Hempty in Hin. by apply not_elem_of_empty in Hin.
Qed.

(** What the loop over the pristine screens computes: the union of the
    closest-match sets is added to the accumulator, and the flag stays up
    exactly when every screen with a closest match is corroborated. *)
Lemma pristine_loop_spec pages detected_pages pristine_screens acc flag acc' flag' :
  pristine_loop pages detected_pages pristine_screens acc flag
    = Returned (acc', flag') →
  (∀ v, v ∈ acc' ↔
        v ∈ acc
        ∨ ∃ screen full incr closest page,
            screen ∈ pristine_screens
            ∧ matching_pages pages screen = Returned (full, incr, closest)
            ∧ page ∈ closest ∧ v = Some page)
  ∧ (flag' = true ↔
     flag = true
     ∧ ∀ screen full incr closest,
         screen ∈ pristine_screens →
         matching_pages pages screen = Returned (full, incr, closest) →
         closest ≠ [] →
         ∃ page, page ∈ closest ∧ Some page ∈ detected_pages).
Proof.
  revert acc flag.
  induction pristine_screens as [|s ss IH]; intros acc flag Hloop;
    simpl in Hloop.
  - injection Hloop as <- <-. split.
    + intros v. split; [auto|].
      intros [?|(s & ? & ? & ? & ? & ?%elem_of_nil & _)]; done.
    + split; [intros ->; split; [done|] | tauto].
      intros s ? ? ? ?%elem_of_nil; done.
  - apply bind_Returned in Hloop as ([[full incr] closest] & Hm & Hloop).
    apply IH in Hloop as [Hacc Hflag]. split.
    + intros v. rewrite Hacc, elem_of_union, elem_of_page_set. split.
      * intros [[?|(p & -> & Hp)]|(s' & f & i & c & p & Hs' & ?)]; [auto| |].
        -- right. exists s, full, incr, closest, p.
           rewrite elem_of_cons. auto.
        -- right. exists s', f, i, c, p. rewrite elem_of_cons. tauto.
      * intros [?|(s' & f & i & c & p & Hs' & Hm' & Hp & ->)]; [auto|].
        apply elem_of_cons in Hs' as [->|Hs'].
        -- rewrite Hm in Hm'. injection Hm' as <- <- <-. left. right. eauto.
        -- right. exists s', f, i, c, p. auto.
    + rewrite Hflag. clear Hflag Hacc IH. split.
      * intros [Hif Hall].
        destruct (bool_decide (page_set closest ≠ ∅)
                  && bool_decide (detected_pages ∩ page_set closest = ∅))
          eqn:Htest; [done|].
        split; [done|]. intros s' f i c [->|Hs']%elem_of_cons Hm' Hne;
          [|by eapply Hall].
        rewrite Hm in Hm'. injection Hm' as <- <- <-.
        apply andb_false_iff in Htest as [Hc|Hd].
        -- apply bool_decide_eq_false in Hc. exfalso. apply Hc.
           intros Hc'. by apply page_set_empty in Hc'.
        -- apply bool_decide_eq_false in Hd. by apply page_set_meets.
      * intros [-> Hall].
        assert (bool_decide (page_set closest ≠ ∅)
                && bool_decide (detected_pages ∩ page_set closest = ∅)
                = false) as ->.
        { destruct closest as [|q closest]; [done|].
          destruct (Hall s full incr (q :: closest)) as (p & Hp & Hd);
            [apply elem_of_cons; auto | done | done |].
          apply andb_false_iff. right. apply bool_decide_eq_false.
          apply page_set_meets. eauto. }
        split; [done|]. intros s' f i c Hs'. apply Hall.
        apply elem_of_cons. auto.
Qed.

Lemma pristine_loop_returns pages detected_pages pristine_screens acc flag :
  forallb (keys_resolve pages) pristine_screens = true →
  ∃ out, pristine_loop pages detected_pages pristine_screens acc flag
         = Returned out.
Proof.
  revert acc flag.
  induction pristine_screens as [|s ss IH]; intros acc flag Hres; simpl;
    [eauto|].
  simpl in Hres. apply andb_true_iff in Hres as [Hs Hss].
  destruct (matching_pages_returns _ _ Hs) as [[[full incr] closest] ->].
  simpl. by apply IH.
Qed.

Lemma pages_with_similarity_raises pages sim krs e :
  pages_with_similarity pages sim krs = Raised e → e = KeyError.
Proof.
  induction krs as [|kr krs IH]; simpl; [done|].
  destruct (String.eqb _ _); [|done].
  unfold page_of_key. destruct (pages !! key kr); simpl; [|congruence].
  destruct (pages_with_similarity pages sim krs); simpl; [done|].
  intros [= <-]. by apply IH.
Qed.

Lemma matching_pages_raises pages screen e :
  matching_pages pages screen = Raised e → e = KeyError.
Proof.
  unfold matching_pages.
  destruct (pages_with_similarity pages "full" _) eqn:Hfull; simpl.
  - destruct (pages_with_similarity pages "incremental" _) eqn:Hincr; simpl;
      [done|]. intros [= <-]. by eapply pages_with_similarity_raises.
  - intros [= <-]. by eapply pages_with_similarity_raises.
Qed.

Lemma pristine_loop_raises pages detected_pages pristine_screens acc flag e :
  pristine_loop pages detected_pages pristine_screens acc flag = Raised e →
  e = KeyError.
Proof.
  revert acc flag. induction pristine_screens as [|s ss IH]; intros acc flag;
    simpl; [done|].
  destruct (matching_pages pages s) as [[[full incr] closest]|e'] eqn:Hm;
    simpl.
  - apply IH.
  - intros [= <-]. by eapply matching_pages_raises.
Qed.

(** The only exception a trial can raise is the [KeyError] of an unknown
    page key. *)
Lemma trial_raises pages frame D e :
  trial pages frame D = Raised e → e = KeyError.
Proof.
  unfold trial.
  destruct (pristine_loop _ _ _ _ _) as [[acc flag]|e'] eqn:Hloop; simpl;
    [done|]. intros [= <-]. by eapply pristine_loop_raises.
Qed.

Lemma trial_returns pages frame D :
  frame_resolves pages frame = true → ∃ success, trial pages frame D = Returned success.
Proof.
  intros Hres. unfold trial.
  destruct (pristine_loop_returns pages (detected_pages_of D)
              (pristine_screen_detector frame) ∅ true Hres) as [[acc flag] ->].
  simpl. eauto.
Qed.

(** C1, as the code has it. A trial of a frame against the belief state [D]
    succeeds if and only if (1) every pristine screen of the frame with a
    non-empty closest-match list has one of its closest matches among the
    values of [D], and (2) the set [extra] of the values of [D] that are a
    closest match of no pristine screen of the frame has at most as many
    elements as the frame has windowed or obstacle screens. A [None] among
    the values of [D] is one of the values counted in (2). *)
Theorem trial_succeeds_iff pages frame D :
  frame_resolves pages frame = true →
  ∃ success,
    trial pages frame D = Returned success
    ∧ (success = true ↔
       (∀ screen full incr closest,
          screen ∈ screens frame → condition screen = "pristine" →
          matching_pages pages screen = Returned (full, incr, closest) →
          closest ≠ [] →
          ∃ page screen_id,
            page ∈ closest ∧ D !! screen_id = Some (Some page))
       ∧ ∃ extra : gset (option Page),
           (∀ v, v ∈ extra ↔
                 (∃ screen_id, D !! screen_id = Some v)
                 ∧ ¬ ∃ screen full incr closest page,
                       screen ∈ screens frame
                       ∧ condition screen = "pristine"
                       ∧ matching_pages pages screen
                         = Returned (full, incr, closest)
                       ∧ page ∈ closest ∧ v = Some page)
           ∧ size extra
             ≤ length (filter (λ screen, condition screen = "windowed"
                                         ∨ condition screen = "obstacle")
                         (screens frame))).
Proof.
  intros Hres. unfold trial.
  destruct (pristine_loop_returns pages (detected_pages_of D)
              (pristine_screen_detector frame) ∅ true Hres)
    as [[acc flag] Hloop].
  rewrite Hloop. simpl. eexists. split; [done|].
  apply pristine_loop_spec in Hloop as [Hacc Hflag].
  rewrite nonpristine_screen_detector_spec.
  assert (∀ v, v ∈ detected_pages_of D ∖ acc ↔
            (∃ screen_id, D !! screen_id = Some v)
            ∧ ¬ ∃ screen full incr closest page,
                  screen ∈ screens frame ∧ condition screen = "pristine"
                  ∧ matching_pages pages screen = Returned (full, incr, closest)
                  ∧ page ∈ closest ∧ v = Some page) as Hextra.
  { intros v. rewrite elem_of_difference, elem_of_detected_pages_of, Hacc.
    split; intros [Hv Hno]; (split; [done|]).
    - intros (s & f & i & c & p & Hs & Hcond & Hrest). apply Hno. right.
      exists s, f, i, c, p. by rewrite pristine_screen_detector_spec.
    - intros [?%not_elem_of_empty|(s & f & i & c & p & Hs & Hrest)]; [done|].
      apply pristine_screen_detector_spec in Hs as [Hs Hcond].
      apply Hno. exists s, f, i, c, p. done. }
  rewrite andb_true_iff, bool_decide_eq_true, Hflag. split.
  - intros [[_ Hall] Hsize]. split.
    + intros s f i c Hs Hcond Hm Hne.
      destruct (Hall s f i c) as (p & Hp & Hd);
        [by apply pristine_screen_detector_spec | done | done |].
      apply elem_of_detected_pages_of in Hd as [sid Hsid]. eauto.
    + by exists (detected_pages_of D ∖ acc).
  - intros [Hall (extra & Hchar & Hsize)]. split.
    + split; [done|]. intros s f i c [Hs Hcond]%pristine_screen_detector_spec Hm Hne.
      destruct (Hall s f i c) as (p & sid & Hp & Hsid); [done..|].
      exists p. split; [done|]. apply elem_of_detected_pages_of. eauto.
    + replace (detected_pages_of D ∖ acc) with extra; [done|].
      apply leibniz_equiv. intros v. by rewrite Hchar, Hextra.
Qed.

(** ** Belief-state updates *)

Lemma update_belief_None D : update_belief (@None ScreenEvent) D = Returned D.
Proof. reflexivity. Qed.

Lemma update_belief_dom event D D' :
  update_belief event D = Returned D' →
  dom D' =
    match event with
    | Some (ScreenAppearedEvent _ i _)
    | Some (ScreenChangedContentEvent _ i _) => {[ i ]} ∪ dom D
    | Some (ScreenDisappearedEvent _ i) => dom D ∖ {[ i ]}
    | Some (OtherScreenEvent _ _) | None => dom D
    end.
Proof.
  destruct event as [[n i p|n i p|n i|n i]|]; simpl;
    try (intros [= <-]; by rewrite ?dom_insert_L).
  destruct (D !! i); [|done]. intros [= <-]. by rewrite dom_delete_L.
Qed.

(** ** The frame loop *)

(** Case analysis on one iteration of the frame loop. *)
Ltac frame_loop_cases Hloop IH :=
  simpl in Hloop;
  match type of Hloop with
  | context [deferred ?ev ?f] => destruct (deferred ev f) eqn:?
  end;
  [ injection Hloop as <- <-
  | match type of Hloop with
    | context [trial ?pg ?f ?D] =>
        let Htrial := fresh "Htrial" in
        destruct (trial pg f D) as [[|]|?] eqn:Htrial
    end;
    [ match type of Hloop with
      | context [bool_decide ?P] => destruct (bool_decide_reflect P)
      end;
      [ match type of Hloop with
        | context [frame_loop ?pg ?ev ?D ?nt ?fs ?n] =>
            let Hrec := fresh "Hrec" in
            destruct (frame_loop pg ev D nt fs n) as [? ?] eqn:Hrec;
            injection Hloop as <- <-; apply IH in Hrec
        end
      | injection Hloop as <- <- ]
    | match type of Hloop with
      | context [frame_loop ?pg ?ev ?D ?nt ?fs ?n] =>
          let Hrec := fresh "Hrec" in
          destruct (frame_loop pg ev D nt fs n) as [? ?] eqn:Hrec;
          injection Hloop as <- <-; apply IH in Hrec
      end
    | injection Hloop as <- <- ] ].

(** The trials of one pass of the frame loop are trials of a prefix of the
    remaining frames, in order, against the current belief state; none of
    the tried frames is one the event defers. When the loop is left normally,
    what remains is the rest of the list, and its first frame, if any, is
    deferred. *)
Lemma frame_loop_frames pages event D num_trials remaining n log r :
  frame_loop pages event D num_trials remaining n = (log, r) →
  Forall (tried_against D) log
  ∧ Forall (λ frame, deferred event frame = false) (trial_frames log)
  ∧ ∃ rest,
      remaining = trial_frames log ++ rest
      ∧ ∀ remaining' n', r = Returned (remaining', n') →
          remaining' = rest
          ∧ ∀ frame, head rest = Some frame → deferred event frame = true.
Proof.
  revert n log r.
  induction remaining as [|f fs IH]; intros n log r Hloop.
  { injection Hloop as <- <-. repeat split; [constructor..|].
    exists []. split; [done|]. intros ? ? [= <- <-]. done. }
  frame_loop_cases Hloop IH.
  - repeat split; [constructor..|]. exists (f :: fs). split; [done|].
    intros ? ? [= <- <-]. split; [done|]. by intros ? [= <-].
  - destruct Hrec as (Hagainst & Hdef & rest & -> & Hret).
    split; [by constructor|]. split; [by constructor|].
    exists rest. split; [done|]. exact Hret.
  - split; [by repeat constructor|]. split; [by repeat constructor|].
    exists fs. split; [done|]. intros ? ? [=].
  - destruct Hrec as (Hagainst & Hdef & rest & -> & Hret).
    split; [by constructor|]. split; [by constructor|].
    exists rest. split; [done|]. exact Hret.
  - repeat split; [constructor..|]. exists (f :: fs). split; [done|].
    intros ? ? [=].
Qed.

(** As long as the successes so far and the frames still to try do not exceed
    [num_trials] together, the assertion holds at every trial, the counters
    written to the log never decrease and stay within bounds, and the bound
    is kept for the next pass. *)
Lemma frame_loop_counters pages event D num_trials remaining n log r :
  n + length remaining ≤ num_trials →
  frame_loop pages event D num_trials remaining n = (log, r) →
  r ≠ Raised AssertionError
  ∧ StronglySorted (λ a b, a.1 ≤ b.1 ∧ a.2 ≤ b.2) (counters log)
  ∧ Forall (λ c, n ≤ c.1 ∧ c.1 ≤ num_trials ∧ c.2 = num_trials)
      (counters log)
  ∧ ∀ remaining' n', r = Returned (remaining', n') →
      n ≤ n' ∧ n' + length remaining' ≤ num_trials
      ∧ Forall (λ c, c.1 ≤ n') (counters log).
Proof.
  revert n log r.
  induction remaining as [|f fs IH]; intros n log r Hinv Hloop.
  { injection Hloop as <- <-. split_and!; [done|constructor..|].
    intros ? ? [= <- <-]. simpl. split_and!; [lia..|constructor]. }
  simpl in Hinv. frame_loop_cases Hloop IH; simpl; try lia.
  - split_and!; [done|constructor..|].
    intros ? ? [= <- <-]. simpl. split_and!; [lia..|constructor].
  - destruct Hrec as (Hno & Hsorted & Hall & Hret).
    split_and!; [done| | |].
    + constructor; [done|]. eapply Forall_impl; [exact Hall|].
      intros [s t] (? & ? & ->). simpl in *. lia.
    + constructor; [simpl; lia|]. eapply Forall_impl; [exact Hall|].
      intros [s t]. simpl. lia.
    + intros fs' n' ->. destruct (Hret fs' n' eq_refl) as (? & ? & ?).
      split_and!; [lia..|]. constructor; [simpl; lia | done].
  - destruct Hrec as (Hno & Hsorted & Hall & Hret).
    split_and!; [done| | |].
    + constructor; [done|]. eapply Forall_impl; [exact Hall|].
      intros [s t] (? & ? & ->). simpl in *. lia.
    + constructor; [simpl; lia|]. eapply Forall_impl; [exact Hall|].
      intros [s t]. simpl. lia.
    + intros fs' n' ->. destruct (Hret fs' n' eq_refl) as (? & ? & ?).
      split_and!; [lia..|]. constructor; [simpl; lia | done].
  - split_and!; [|constructor..|intros ? ? [=]].
    apply trial_raises in Htrial as ->. done.
Qed.


(** With a consistent dataset and the counter bound, the frame loop is left
    normally. *)
Lemma frame_loop_returns pages event D num_trials remaining n :
  forallb (frame_resolves pages) remaining = true →
  n + length remaining ≤ num_trials →
  ∃ log remaining' n',
    frame_loop pages event D num_trials remaining n
    = (log, Returned (remaining', n')).
Proof.
  revert n. induction remaining as [|f fs IH]; intros n Hres Hinv; simpl;
    [eauto|].
  simpl in Hres, Hinv. apply andb_true_iff in Hres as [Hf Hfs].
  destruct (deferred event f); [eauto|].
  destruct (trial_returns pages f D Hf) as [[|] ->].
  - rewrite bool_decide_eq_true_2 by lia.
    destruct (IH (S n) Hfs) as (log & fs' & n' & ->); [lia | eauto].
  - destruct (IH n Hfs) as (log & fs' & n' & ->); [lia | eauto].
Qed.

(** ** The event loop *)

Lemma trial_frames_app (l1 l2 : list (@LogEntry Page ScreenId _ _)) :
  trial_frames (l1 ++ l2) = trial_frames l1 ++ trial_frames l2.
Proof. apply omap_app. Qed.

Lemma counters_app (l1 l2 : list (@LogEntry Page ScreenId _ _)) :
  counters (l1 ++ l2) = counters l1 ++ counters l2.
Proof. apply omap_app. Qed.

Lemma trial_frames_update_entry event D :
  trial_frames (update_entry event D) = [].
Proof. by destruct event. Qed.

Lemma counters_update_entry event D : counters (update_entry event D) = [].
Proof. by destruct event. Qed.

Lemma event_loop_cons pages num_trials event events remaining D n :
  event_loop pages num_trials (event :: events) remaining D n =
  match frame_loop pages event D num_trials remaining n with
  | (log1, Raised e) => (log1, Raised e)
  | (log1, Returned (remaining', n')) =>
      match update_belief event D with
      | Raised e => (log1, Raised e)
      | Returned D' =>
          let '(log2, r) :=
            event_loop pages num_trials events remaining' D' n' in
          (log1 ++ update_entry event D' ++ log2, r)
      end
  end.
Proof. reflexivity. Qed.

(** Case analysis on one iteration of the event loop. *)
Ltac event_loop_cases Hloop :=
  rewrite event_loop_cons in Hloop;
  match type of Hloop with
  | context [frame_loop ?pg ?ev ?D ?nt ?fs ?n] =>
      let Hframes := fresh "Hframes" in
      destruct (frame_loop pg ev D nt fs n) as [? [[? ?]|?]] eqn:Hframes
  end;
  [ match type of Hloop with
    | context [update_belief ?ev ?D] =>
        let Hupdate := fresh "Hupdate" in
        destruct (update_belief ev D) as [?|?] eqn:Hupdate
    end;
    [ match type of Hloop with
      | context [event_loop ?pg ?nt ?evs ?fs ?D ?n] =>
          let Hrec := fresh "Hrec" in
          destruct (event_loop pg nt evs fs D n) as [? ?] eqn:Hrec;
          injection Hloop as <- <-
      end
    | injection Hloop as <- <- ]
  | injection Hloop as <- <- ].

(** The frames tried during the event loop are a prefix of the frames that
    remained at its start, in order; the loop returns the rest. *)
Lemma event_loop_frames pages num_trials events remaining D n log r :
  event_loop pages num_trials events remaining D n = (log, r) →
  ∃ rest,
    remaining = trial_frames log ++ rest
    ∧ ∀ remaining' D' n', r = Returned (remaining', D', n') →
        remaining' = rest.
Proof.
  revert remaining D n log r.
  induction events as [|event events IH]; intros fs D n log r Hloop.
  { injection Hloop as <- <-. exists fs. split; [done|].
    by intros ? ? ? [= <- _ _]. }
  event_loop_cases Hloop.
  - apply frame_loop_frames in Hframes as (_ & _ & rest1 & -> & Hret).
    destruct (Hret _ _ eq_refl) as [-> _].
    apply IH in Hrec as (rest & -> & Hret').
    exists rest. rewrite !trial_frames_app, trial_frames_update_entry.
    simpl. by rewrite <- (assoc_L (++)).
  - apply frame_loop_frames in Hframes as (_ & _ & rest1 & -> & Hret).
    exists rest1. split; [done|]. intros ? ? ? [=].
  - apply frame_loop_frames in Hframes as (_ & _ & rest1 & -> & Hret).
    exists rest1. split; [done|]. intros ? ? ? [=].
Qed.

(** The counters over the whole event loop: the assertion never fails, the
    logged counters never decrease, and [num_successes ≤ num_trials] after
    every trial. *)
Lemma event_loop_counters pages num_trials events remaining D n log r :
  n + length remaining ≤ num_trials →
  event_loop pages num_trials events remaining D n = (log, r) →
  r ≠ Raised AssertionError
  ∧ StronglySorted (λ a b, a.1 ≤ b.1 ∧ a.2 ≤ b.2) (counters log)
  ∧ Forall (λ c, n ≤ c.1 ∧ c.1 ≤ num_trials ∧ c.2 = num_trials)
      (counters log)
  ∧ ∀ remaining' D' n', r = Returned (remaining', D', n') →
      n ≤ n' ∧ n' + length remaining' ≤ num_trials
      ∧ Forall (λ c, c.1 ≤ n') (counters log).
Proof.
  revert remaining D n log r.
  induction events as [|event events IH]; intros fs D n log r Hinv Hloop.
  { injection Hloop as <- <-. split_and!; [done|constructor..|].
    intros ? ? ? [= <- _ <-]. split_and!; [lia..|constructor]. }
  event_loop_cases Hloop.
  - apply frame_loop_counters in Hframes as (_ & Hs1 & Hall1 & Hret1);
      [|done].
    destruct (Hret1 _ _ eq_refl) as (Hn & Hinv' & Hle1).
    apply IH in Hrec as (Hno & Hs2 & Hall2 & Hret2); [|done].
    rewrite !counters_app, counters_update_entry. simpl.
    split_and!; [done| | |].
    + apply StronglySorted_app_2; [|done..].
      intros [s1 t1] [s2 t2] Hin1 Hin2.
      rewrite Forall_forall in Hle1, Hall1, Hall2.
      apply Hle1 in Hin1 as Hb1. apply Hall1 in Hin1 as (_ & _ & ?).
      apply Hall2 in Hin2 as (? & _ & ?). simpl in *. lia.
    + apply Forall_app. split; [done|].
      eapply Forall_impl; [exact Hall2|]. intros [s t]. simpl. lia.
    + intros fs' D' n' ->. destruct (Hret2 _ _ _ eq_refl) as (? & ? & Hle2).
      split_and!; [lia..|]. apply Forall_app. split; [|done].
      eapply Forall_impl; [exact Hle1|]. intros [s t]. simpl. lia.
  - apply frame_loop_counters in Hframes as (_ & Hs1 & Hall1 & Hret1);
      [|done].
    split_and!; [|done..|intros ? ? ? [=]].
    destruct event as [[]|]; simpl in Hupdate; try done.
    destruct (D !! screen_id); [done|]. by injection Hupdate as <-.
  - apply frame_loop_counters in Hframes as (Hno & Hs1 & Hall1 & Hret1);
      [|done].
    split_and!; [|done..|intros ? ? ? [=]]. intros [= ->]. by apply Hno.
Qed.

Lemma event_loop_app pages num_trials events1 events2 remaining D n :
  event_loop pages num_trials (events1 ++ events2) remaining D n =
  match event_loop pages num_trials events1 remaining D n with
  | (log1, Returned (remaining', D', n')) =>
      let '(log2, r) :=
        event_loop pages num_trials events2 remaining' D' n' in
      (log1 ++ log2, r)
  | (log1, Raised e) => (log1, Raised e)
  end.
Proof.
  revert remaining D n.
  induction events1 as [|event events1 IH]; intros fs D n; simpl.
  { by destruct (event_loop pages num_trials events2 fs D n). }
  destruct (frame_loop pages event D num_trials fs n) as [log1 [[fs' n']|e]];
    [|done].
  destruct (update_belief event D) as [D'|e]; [|done].
  rewrite IH.
  destruct (event_loop pages num_trials events1 fs' D' n')
    as [log2 [[[fs'' D''] n'']|e]]; [|done].
  destruct (event_loop pages num_trials events2 fs'' D'' n'') as [log3 r].
  by rewrite <- !(assoc_L (++)).
Qed.

(** The end-of-stream pass tries every remaining frame against the belief
    state it is given, and leaves that state as it is. *)
Lemma end_marker_pass pages num_trials remaining D n log r :
  event_loop pages num_trials [None] remaining D n = (log, r) →
  Forall (tried_against D) log
  ∧ ∀ remaining' D' n', r = Returned (remaining', D', n') →
      trial_frames log = remaining ∧ remaining' = [] ∧ D' = D.
Proof.
  intros Hloop. simpl in Hloop.
  destruct (frame_loop pages None D num_trials remaining n)
    as [log1 [[fs' n']|e]] eqn:Hframes; injection Hloop as <- <-;
    apply frame_loop_frames in Hframes as (Hagainst & _ & rest & -> & Hret).
  - rewrite (right_id_L [] (++)). split; [done|].
    intros ? ? ? [= <- <- _].
    destruct (Hret _ _ eq_refl) as [-> Hhead].
    destruct rest as [|f rest]; [by rewrite (right_id_L [] (++))|].
    by specialize (Hhead f eq_refl).
  - split; [done|]. intros ? ? ? [=].
Qed.

Lemma forallb_app_r {A} (P : A → bool) (l1 l2 : list A) :
  forallb P (l1 ++ l2) = true → forallb P l2 = true.
Proof. rewrite forallb_app, andb_true_iff. tauto. Qed.

(** With a consistent dataset and an event stream whose disappearances are
    tracked, the event loop with the end-of-stream marker runs to the end and
    leaves no frame. *)
Lemma event_loop_returns pages num_trials event_detector remaining D n :
  forallb (frame_resolves pages) remaining = true →
  disappearances_tracked event_detector (dom D) = true →
  n + length remaining ≤ num_trials →
  ∃ log D' n',
    event_loop pages num_trials (with_end_marker event_detector) remaining D n
    = (log, Returned ([], D', n')).
Proof.
  revert remaining D n.
  induction event_detector as [|e es IH]; intros fs D n Hres Htracked Hinv.
  - destruct (frame_loop_returns pages None D num_trials fs n Hres Hinv)
      as (log & fs' & n' & Hframes).
    destruct (event_loop pages num_trials (with_end_marker []) fs D n)
      as [log' r] eqn:Hloop.
    pose proof (end_marker_pass _ _ _ _ _ _ _ Hloop) as [_ Hret].
    unfold with_end_marker in Hloop. simpl in Hloop.
    rewrite Hframes in Hloop. injection Hloop as <- <-.
    destruct (Hret _ _ _ eq_refl) as (_ & -> & _). eauto.
  - destruct (frame_loop_returns pages (Some e) D num_trials fs n Hres Hinv)
      as (log1 & fs' & n' & Hframes).
    pose proof (frame_loop_frames _ _ _ _ _ _ _ _ Hframes)
      as (_ & _ & rest & -> & Hret).
    destruct (Hret _ _ eq_refl) as [-> _].
    pose proof (frame_loop_counters _ _ _ _ _ _ _ _ Hinv Hframes)
      as (_ & _ & _ & Hcount).
    destruct (Hcount _ _ eq_refl) as (_ & Hinv' & _).
    apply forallb_app_r in Hres.
    assert (∃ D', update_belief (Some e) D = Returned D'
                  ∧ disappearances_tracked es (dom D') = true)
      as (D' & Hupdate & Htracked').
    { destruct e as [m i p|m i p|m i|m i]; simpl in Htracked |- *.
      - eexists. split; [done|]. by rewrite dom_insert_L.
      - eexists. split; [done|]. by rewrite dom_insert_L.
      - apply andb_true_iff in Htracked as [Hi Htracked].
        apply bool_decide_eq_true, elem_of_dom in Hi as [v ->].
        eexists. split; [done|]. by rewrite dom_delete_L.
      - eauto. }
    destruct (IH rest D' n' Hres Htracked' Hinv') as (log2 & D'' & n'' & Hrec).
    change (with_end_marker (e :: es)) with (Some e :: with_end_marker es).
    rewrite event_loop_cons, Hframes, Hupdate, Hrec. eauto.
Qed.

(** ** Synchronisation of frames and events *)

Lemma tried_against_not_update D (log : list (@LogEntry Page ScreenId _ _))
    e De :
  Forall (tried_against D) log → UpdateEntry e De ∉ log.
Proof.
  rewrite Forall_forall. intros Hall Hin. by apply Hall in Hin.
Qed.

Lemma split_after_prefix {A} (log1 rest l1 l2 : list A) y :
  log1 ++ rest = l1 ++ y :: l2 → y ∉ log1 →
  ∃ l1', l1 = log1 ++ l1' ∧ rest = l1' ++ y :: l2.
Proof.
  revert l1. induction log1 as [|x log1 IH]; intros l1 Heq Hnotin.
  { exists l1. done. }
  apply not_elem_of_cons in Hnotin as [Hne Hnotin].
  destruct l1 as [|x' l1]; simpl in Heq.
  - injection Heq as -> _. done.
  - injection Heq as <- Heq. destruct (IH _ Heq Hnotin) as (l1' & -> & ->).
    by exists l1'.
Qed.



(** ** The whole run *)

Lemma run_event_loop video event_detector :
  ∃ log r,
    event_loop (pages_index video) (length (frames video))
      (with_end_marker event_detector) (frames video) ∅ 0 = (log, r)
    ∧ evaluation_log video event_detector = log
    ∧ evaluate_event_detector video event_detector
      = return_counts (length (frames video)) r.
Proof.
  unfold evaluation_log, evaluate_event_detector, run.
  destruct (event_loop _ _ _ _ _ _) as [log r]. eauto.
Qed.

Lemma evaluate_returned_inv (r : result (list Frame * gmap ScreenId (option Page) * nat))
    num_trials s t :
  return_counts num_trials r = Returned (s, t) →
  ∃ remaining D, r = Returned (remaining, D, s) ∧ t = num_trials.
Proof.
  destruct r as [[[fs D] n]|e]; simpl; [|done]. intros [= <- <-]. eauto.
Qed.

(** A run that returns has tried the frames of the video, each once, in
    order. *)
Lemma returned_run_tries_all_frames video event_detector c :
  evaluate_event_detector video event_detector = Returned c →
  trial_frames (evaluation_log video event_detector) = frames video.
Proof.
  destruct (run_event_loop video event_detector) as (log & r & Hloop & -> & ->).
  destruct c as [s t]. intros (fs & D & -> & _)%evaluate_returned_inv.
  unfold with_end_marker in Hloop. rewrite event_loop_app in Hloop.
  destruct (event_loop _ _ (Some <$> event_detector) _ _ _)
    as [log1 [[[fs1 D1] n1]|e]] eqn:Hloop1; [|done].
  destruct (event_loop _ _ [None] _ _ _) as [log2 r2] eqn:Hloop2.
  injection Hloop as <- ->.
  apply event_loop_frames in Hloop1 as (rest & -> & Hret).
  specialize (Hret _ _ _ eq_refl) as ->.
  apply end_marker_pass in Hloop2 as [_ Hret].
  destruct (Hret _ _ _ eq_refl) as (Hflush & _).
  by rewrite trial_frames_app, Hflush.
Qed.

Lemma evaluate_returns video event_detector :
  video_resolves video = true →
  disappearances_tracked event_detector ∅ = true →
  ∃ s, evaluate_event_detector video event_detector
       = Returned (s, length (frames video)).
Proof.
  intros Hres Htracked.
  destruct (run_event_loop video event_detector) as (log & r & Hloop & _ & ->).
  destruct (event_loop_returns (pages_index video) (length (frames video))
              event_detector (frames video) ∅ 0) as (log' & D' & n' & Hret);
    [done | by rewrite dom_empty_L | lia |].
  rewrite Hret in Hloop. injection Hloop as _ <-. simpl. eauto.
Qed.

(** ** Main theorems *)



(** C4, as the code has it. At every trial the set of detected pages is the
    set of distinct values of the belief-state map, [None] included: a value
    belongs to it exactly when some screen id is mapped to it, and a [None]
    stored by an appearance or content-change event is an element of it. *)
Theorem detected_pages_are_belief_values D :
  (∀ v, v ∈ detected_pages_of D ↔ ∃ screen_id, D !! screen_id = Some v)
  ∧ (∀ frame_number screen_id D',
       update_belief (Some (ScreenAppearedEvent frame_number screen_id None)) D
       = Returned D'
       ∨ update_belief
           (Some (ScreenChangedContentEvent frame_number screen_id None)) D
         = Returned D' →
       None ∈ detected_pages_of D').
Proof.
  split; [apply elem_of_detected_pages_of|].
  intros m i D' [[= <-]|[= <-]]; apply elem_of_detected_pages_of; exists i;
    apply lookup_insert_eq.
Qed.

(** C5, as the code has it. Whenever [evaluate_event_detector] returns,
    [num_trials] is the number of frames of the video, whatever the event
    stream; and it does return, for every event stream (the empty one
    included) whose disappearance events refer to tracked screens, on a video
    whose key references resolve. *)
Theorem num_trials_is_number_of_frames video event_detector :
  (∀ s t, evaluate_event_detector video event_detector = Returned (s, t) →
          t = length (frames video))
  ∧ (video_resolves video = true →
     disappearances_tracked event_detector ∅ = true →
     ∃ s, evaluate_event_detector video event_detector
          = Returned (s, length (frames video))).
Proof.
  split; [|apply evaluate_returns].
  destruct (run_event_loop video event_detector) as (log & r & _ & _ & ->).
  intros s t (? & ? & _ & ->)%evaluate_returned_inv. done.
Qed.

(** C7, as the code has it. On a video whose key references resolve and an
    event stream whose disappearance events refer to tracked screens, the
    frames tried over the run are the frames of the video, each once and in
    order; and the log is the log of the loop over the events of the stream
    followed by the trials of the end-of-stream pass, which tries every frame
    that loop left, all against the belief state that loop left. *)
Theorem every_frame_tried_once video event_detector :
  video_resolves video = true →
  disappearances_tracked event_detector ∅ = true →
  trial_frames (evaluation_log video event_detector) = frames video
  ∧ ∃ log_events remaining D n flush,
      event_loop (pages_index video) (length (frames video))
        (Some <$> event_detector) (frames video) ∅ 0
      = (log_events, Returned (remaining, D, n))
      ∧ evaluation_log video event_detector = log_events ++ flush
      ∧ trial_frames flush = remaining
      ∧ Forall (tried_against D) flush.
Proof.
  intros Hres Htracked.
  destruct (evaluate_returns video event_detector Hres Htracked) as [s Hret].
  split; [by eapply returned_run_tries_all_frames|].
  destruct (run_event_loop video event_detector)
    as (log & r & Hloop & -> & Heval).
  rewrite Heval in Hret.
  apply evaluate_returned_inv in Hret as (fs & D & -> & _).
  unfold with_end_marker in Hloop. rewrite event_loop_app in Hloop.
  destruct (event_loop _ _ (Some <$> event_detector) _ _ _)
    as [log1 [[[fs1 D1] n1]|e]] eqn:Hloop1; [|done].
  destruct (event_loop _ _ [None] _ _ _) as [log2 r2] eqn:Hloop2.
  injection Hloop as <- ->.
  apply end_marker_pass in Hloop2 as [Hagainst Hpass].
  destruct (Hpass _ _ _ eq_refl) as (Hflush & _).
  exists log1, fs1, D1, n1, log2. done.
Qed.

(** C9. Over every run, [num_successes ≤ num_trials] holds after every
    trial, so the assertion never fails; the counters written after each
    trial never decrease from one trial to a later one, [num_trials] being
    the number of frames throughout; and the counts returned are at least
    those after any trial. *)
Theorem counters_invariant video event_detector :
  evaluate_event_detector video event_detector ≠ Raised AssertionError
  ∧ Forall (λ c, c.1 ≤ c.2 ∧ c.2 = length (frames video))
      (counters (evaluation_log video event_detector))
  ∧ StronglySorted (λ a b, a.1 ≤ b.1 ∧ a.2 ≤ b.2)
      (counters (evaluation_log video event_detector))
  ∧ ∀ s t, evaluate_event_detector video event_detector = Returned (s, t) →
      s ≤ t
      ∧ Forall (λ c, c.1 ≤ s ∧ c.2 ≤ t)
          (counters (evaluation_log video event_detector)).
Proof.
  destruct (run_event_loop video event_detector)
    as (log & r & Hloop & -> & ->).
  apply event_loop_counters in Hloop as (Hno & Hsorted & Hall & Hret);
    [|simpl; lia].
  split_and!.
  - destruct r as [[[fs D] n]|e]; simpl; [done|]. intros [= ->]. done.
  - eapply Forall_impl; [exact Hall|]. intros [s t] (_ & ? & ->). done.
  - done.
  - intros s t (fs & D & -> & ->)%evaluate_returned_inv.
    destruct (Hret _ _ _ eq_refl) as (_ & ? & Hle). split; [lia|].
    rewrite Forall_forall in Hall, Hle. apply Forall_forall.
    intros [s' t'] Hin. apply Hall in Hin as Ha. apply Hle in Hin.
    simpl in *. lia.
Qed.

(** C10. An applied belief-state update changes at most the entry of the
    event's screen id: the entry of every other screen id is as before. For
    the end-of-stream marker no screen id is excepted, so no entry changes. *)
Theorem update_touches_only_event_screen event D D' screen_id :
  update_belief event D = Returned D' →
  (∀ e, event = Some e → screen_id ≠ event_screen_id e) →
  D' !! screen_id = D !! screen_id.
Proof.
  intros Hupdate Hother.
  destruct event as [[m i p|m i p|m i|m i]|]; simpl in Hupdate;
    try specialize (Hother _ eq_refl); simpl in Hother.
  - injection Hupdate as <-. by apply lookup_insert_ne.
  - injection Hupdate as <-. by apply lookup_insert_ne.
  - destruct (D !! i); [|done]. injection Hupdate as <-.
    by apply lookup_delete_ne.
  - by injection Hupdate as <-.
  - by injection Hupdate as <-.
Qed.

(** * Further properties of the code *)

(** ** The ground-truth screen filter *)

Lemma disjoint_filters_length {A} (P Q : A → Prop)
    `{!∀ x, Decision (P x), !∀ x, Decision (Q x)} (l : list A) :
  (∀ x, P x → ¬ Q x) →
  length (filter P l) + length (filter Q l) ≤ length l.
Proof.
  intros Hdisjoint. induction l as [|x l IH]; [done|].
  rewrite !filter_cons. destruct (decide (P x)) as [HP|HP].
  - destruct (decide (Q x)) as [HQ|HQ]; [by apply Hdisjoint in HP|].
    simpl. lia.
  - destruct (decide (Q x)); simpl; lia.
Qed.

Lemma filter_ext_elem {A} (P Q : A → Prop)
    `{!∀ x, Decision (P x), !∀ x, Decision (Q x)} (l : list A) :
  (∀ x, x ∈ l → (P x ↔ Q x)) → filter P l = filter Q l.
Proof.
  induction l as [|x l IH]; intros Hext; [done|].
  rewrite !filter_cons.
  assert (filter P l = filter Q l) as ->.
  { apply IH. intros y Hy. apply Hext, elem_of_cons. auto. }
  assert (P x ↔ Q x) as Hx by (apply Hext, elem_of_cons; auto).
  destruct (decide (P x)), (decide (Q x)); tauto.
Qed.

Lemma filter_all {A} (P : A → Prop) `{!∀ x, Decision (P x)} (l : list A) :
  (∀ x, x ∈ l → P x) → filter P l = l.
Proof.
  induction l as [|x l IH]; intros Hall; [done|].
  rewrite filter_cons_True by (apply Hall, elem_of_cons; auto).
  f_equal. apply IH. intros y Hy. apply Hall, elem_of_cons. auto.
Qed.

(** The two views of the ground truth the evaluator uses: the pristine view
    holds pristine screens only and the other view windowed and obstacle
    screens only, so they never share a screen and a screen with any other
    condition is in neither; together they hold the screens of the frame that
    have one of the three legal conditions, each as often as the frame has
    it, hence never more screens than the frame has, and all of them when
    every condition is legal. *)
Theorem pristine_and_nonpristine_views frame :
  (∀ screen, screen ∈ pristine_screen_detector frame →
             condition screen = "pristine")
  ∧ (∀ screen, screen ∈ nonpristine_screen_detector frame →
               condition screen = "windowed" ∨ condition screen = "obstacle")
  ∧ (∀ screen, condition screen ≠ "pristine" →
               condition screen ≠ "windowed" →
               condition screen ≠ "obstacle" →
               (screen ∉ pristine_screen_detector frame)
               ∧ (screen ∉ nonpristine_screen_detector frame))
  ∧ pristine_screen_detector frame ++ nonpristine_screen_detector frame
    ≡ₚ filter (λ screen, condition screen = "pristine"
                         ∨ condition screen = "windowed"
                         ∨ condition screen = "obstacle") (screens frame)
  ∧ (∀ screen, screen ∈ pristine_screen_detector frame →
               screen ∉ nonpristine_screen_detector frame)
  ∧ length (pristine_screen_detector frame)
    + length (nonpristine_screen_detector frame)
    ≤ length (screens frame)
  ∧ ((∀ screen, screen ∈ screens frame →
                condition screen = "pristine" ∨ condition screen = "windowed"
                ∨ condition screen = "obstacle") →
     pristine_screen_detector frame ++ nonpristine_screen_detector frame
     ≡ₚ screens frame).
Proof.
  assert (pristine_screen_detector frame
          = filter (λ screen, condition screen = "pristine") (screens frame))
    as Hpristine.
  { unfold pristine_screen_detector, detect. apply list_filter_iff.
    intros screen. rewrite andb_True, bool_decide_spec, elem_of_singleton.
    simpl. tauto. }
  rewrite nonpristine_screen_detector_spec, Hpristine.
  assert ((filter (λ screen, condition screen = "pristine") (screens frame)
           ++ filter (λ screen, condition screen = "windowed"
                                ∨ condition screen = "obstacle")
                (screens frame))
          ≡ₚ filter (λ screen, condition screen = "pristine"
                               ∨ condition screen = "windowed"
                               ∨ condition screen = "obstacle")
               (screens frame)) as Hmerge.
  { clear Hpristine. induction (screens frame) as [|x l IH]; [done|].
    rewrite !filter_cons.
    destruct (decide (condition x = "pristine")) as [Hp|Hp].
    - rewrite decide_False by (intros [?|?]; congruence).
      rewrite decide_True by auto. simpl. apply Permutation_skip, IH.
    - destruct (decide (condition x = "windowed" ∨ condition x = "obstacle"))
        as [Hn|Hn].
      + rewrite decide_True by auto.
        rewrite <- Permutation_middle. apply Permutation_skip, IH.
      + rewrite decide_False by tauto. exact IH. }
  split_and!.
  - by intros screen [Hp _]%list_elem_of_filter.
  - by intros screen [Hn _]%list_elem_of_filter.
  - intros screen Hp Hw Ho. split.
    + intros [? _]%list_elem_of_filter. congruence.
    + intros [[?|?] _]%list_elem_of_filter; congruence.
  - exact Hmerge.
  - intros screen [Hp _]%list_elem_of_filter [[Hn|Hn] _]%list_elem_of_filter;
      congruence.
  - apply disjoint_filters_length. intros screen -> [?|?]; done.
  - intros Hlegal. rewrite Hmerge. apply reflexive_eq.
    by apply filter_all.
Qed.

(** ** Matching pages: errors and order *)

Lemma pages_with_similarity_inv pages sim krs ps :
  pages_with_similarity pages sim krs = Returned ps →
  Forall2 (λ keyref page, pages !! key keyref = Some page)
    (filter (λ keyref, similarity keyref = sim) krs) ps.
Proof.
  revert ps. induction krs as [|kr krs IH]; intros ps Hps; simpl in Hps.
  { injection Hps as <-. constructor. }
  rewrite filter_cons.
  destruct (String.eqb_spec (similarity kr) sim) as [Hsim|Hsim].
  - apply bind_Returned in Hps as (q & Hq & Hps).
    apply bind_Returned in Hps as (qs & Hqs & [= <-]).
    unfold page_of_key in Hq.
    destruct (pages !! key kr) as [q'|] eqn:Hlook; [|done].
    injection Hq as ->. rewrite decide_True by done.
    constructor; [done | by apply IH].
  - rewrite decide_False by done. by apply IH.
Qed.

Lemma keys_resolve_intro pages screen full incr :
  pages_with_similarity pages "full" (keyrefs screen) = Returned full →
  pages_with_similarity pages "incremental" (keyrefs screen) = Returned incr →
  keys_resolve pages screen = true.
Proof.
  intros Hfull%pages_with_similarity_inv Hincr%pages_with_similarity_inv.
  unfold keys_resolve. apply forallb_forall. intros kr Hin%list_elem_of_In.
  destruct (String.eqb_spec (similarity kr) "full") as [Hf|Hf]; simpl.
  - assert (kr ∈ filter (λ keyref, similarity keyref = "full")
                   (keyrefs screen)) as Hkr by by apply list_elem_of_filter.
    apply list_elem_of_lookup in Hkr as [i Hi].
    destruct (Forall2_lookup_l _ _ _ _ _ Hfull Hi) as (p & _ & Hp).
    apply bool_decide_eq_true. eauto.
  - destruct (String.eqb_spec (similarity kr) "incremental") as [Hi|Hi];
      simpl; [|done].
    assert (kr ∈ filter (λ keyref, similarity keyref = "incremental")
                   (keyrefs screen)) as Hkr by by apply list_elem_of_filter.
    apply list_elem_of_lookup in Hkr as [i Hlook].
    destruct (Forall2_lookup_l _ _ _ _ _ Hincr Hlook) as (p & _ & Hp).
    apply bool_decide_eq_true. eauto.
Qed.

Lemma matching_pages_resolved pages screen m :
  matching_pages pages screen = Returned m → keys_resolve pages screen = true.
Proof.
  destruct m as [[full incr] closest].
  intros (Hfull & Hincr & _)%matching_pages_inv.
  by eapply keys_resolve_intro.
Qed.

(** [matching_pages] returns exactly when every full or incremental key
    reference of the screen names a key of the page index, and otherwise
    raises [KeyError]; key references with any other similarity are never
    looked up. *)
Theorem matching_pages_returns_iff pages screen :
  ((∃ m, matching_pages pages screen = Returned m) ↔
   keys_resolve pages screen = true)
  ∧ (matching_pages pages screen = Raised KeyError ↔
     keys_resolve pages screen = false)
  ∧ matching_pages pages screen ≠ Raised AssertionError.
Proof.
  split_and!.
  - split; [|apply matching_pages_returns].
    intros [m Hm]. by eapply matching_pages_resolved.
  - split.
    + intros Hraised. destruct (keys_resolve pages screen) eqn:Hres; [|done].
      apply matching_pages_returns in Hres as [m Hm]. congruence.
    + intros Hfalse. destruct (matching_pages pages screen) as [m|e] eqn:Hm.
      * apply matching_pages_resolved in Hm. congruence.
      * by apply matching_pages_raises in Hm as ->.
  - intros Hraised. by apply matching_pages_raises in Hraised.
Qed.

Lemma shows_no_page_filters screen :
  shows_no_page screen = true ↔
  filter (λ keyref, similarity keyref = "full") (keyrefs screen) = []
  ∧ filter (λ keyref, similarity keyref = "incremental") (keyrefs screen) = [].
Proof.
  unfold shows_no_page. induction (keyrefs screen) as [|kr krs IH]; [done|].
  simpl. rewrite andb_true_iff, IH, !filter_cons.
  destruct (String.eqb_spec (similarity kr) "full"),
    (String.eqb_spec (similarity kr) "incremental");
    simpl; repeat case_decide; try congruence; intuition congruence.
Qed.

Lemma closest_nil_iff pages screen full incr closest :
  matching_pages pages screen = Returned (full, incr, closest) →
  closest = [] ↔ shows_no_page screen = true.
Proof.
  intros (Hfull & Hincr & ->)%matching_pages_inv.
  apply pages_with_similarity_inv in Hfull, Hincr.
  rewrite shows_no_page_filters.
  apply Forall2_length in Hfull as Hlf. apply Forall2_length in Hincr as Hli.
  destruct full as [|p full].
  - apply nil_length_inv in Hlf. rewrite Hlf. split.
    + intros ->. split; [done|]. by apply nil_length_inv in Hli.
    + intros [_ Hi]. rewrite Hi in Hli. by destruct incr.
  - split; [done|]. intros [Hf _]. rewrite Hf in Hlf. done.
Qed.

(** The pages [matching_pages] returns follow the key references: the full
    matches are the pages of the full key references, one for one and in the
    order of the references, and so are the incremental matches; the closest
    matches are empty exactly when the screen has neither kind of
    reference. *)
Theorem matching_pages_in_keyref_order pages screen full incr closest :
  matching_pages pages screen = Returned (full, incr, closest) →
  Forall2 (λ keyref page, pages !! key keyref = Some page)
    (filter (λ keyref, similarity keyref = "full") (keyrefs screen)) full
  ∧ Forall2 (λ keyref page, pages !! key keyref = Some page)
      (filter (λ keyref, similarity keyref = "incremental") (keyrefs screen))
      incr
  ∧ (closest = [] ↔ shows_no_page screen = true).
Proof.
  intros Hm. pose proof (closest_nil_iff _ _ _ _ _ Hm) as Hnil.
  apply matching_pages_inv in Hm as (Hfull & Hincr & _).
  apply pages_with_similarity_inv in Hfull, Hincr. done.
Qed.

(** ** Belief-state updates compose *)

(** After an applied disappearance the screen is no longer tracked, so a
    second disappearance of it raises [KeyError]; an appearance with the page
    the screen was believed to show brings back the belief state from before
    the disappearance. *)
Theorem disappearance_then_reappearance D D1 n screen_id :
  update_belief (Some (ScreenDisappearedEvent n screen_id)) D = Returned D1 →
  D1 !! screen_id = None
  ∧ (∀ n', update_belief (Some (ScreenDisappearedEvent n' screen_id)) D1
           = Raised KeyError)
  ∧ ∃ page,
      D !! screen_id = Some page
      ∧ ∀ n', update_belief (Some (ScreenAppearedEvent n' screen_id page)) D1
              = Returned D.
Proof.
  simpl. destruct (D !! screen_id) as [page|] eqn:Hlook; [|done].
  intros [= <-]. rewrite lookup_delete_eq. split_and!; [done..|].
  exists page. split; [done|]. intros _.
  by rewrite insert_delete_eq, insert_id.
Qed.

(** An applied appearance or content change maps the screen to the page of
    the event, replacing what was believed before, and the screen can then
    disappear, which leaves the belief state without the screen. *)
Theorem appearance_then_disappearance D n screen_id page :
  ∃ D1,
    update_belief (Some (ScreenAppearedEvent n screen_id page)) D = Returned D1
    ∧ update_belief (Some (ScreenChangedContentEvent n screen_id page)) D
      = Returned D1
    ∧ D1 !! screen_id = Some page
    ∧ ∀ n', update_belief (Some (ScreenDisappearedEvent n' screen_id)) D1
            = Returned (delete screen_id D).
Proof.
  exists (<[screen_id := page]> D). simpl. rewrite lookup_insert_eq.
  split_and!; [done..|]. intros _. by rewrite delete_insert_eq.
Qed.

(** ** A trial reads only the believed pages *)

(** The verdict of a trial depends on the belief state only through the set
    of its values: which screen identifier a page is believed on, and on how
    many, makes no difference. *)
Theorem trial_reads_only_values pages frame D1 D2 :
  (∀ v, (∃ i, D1 !! i = Some v) ↔ (∃ j, D2 !! j = Some v)) →
  trial pages frame D1 = trial pages frame D2.
Proof.
  intros Hvalues.
  assert (detected_pages_of D1 = detected_pages_of D2) as Hsame.
  { apply leibniz_equiv. intros v. by rewrite !elem_of_detected_pages_of. }
  unfold trial. by rewrite Hsame.
Qed.

(** ** When the evaluation completes *)

Lemma pristine_loop_resolved pages detected_pages pristine_screens acc flag
    out :
  pristine_loop pages detected_pages pristine_screens acc flag = Returned out →
  forallb (keys_resolve pages) pristine_screens = true.
Proof.
  revert acc flag.
  induction pristine_screens as [|s ss IH]; intros acc flag Hloop; [done|].
  simpl in Hloop.
  apply bind_Returned in Hloop as ([[full incr] closest] & Hm & Hloop).
  simpl. apply andb_true_iff. split; [by eapply matching_pages_resolved|].
  by eapply IH.
Qed.

Lemma trial_resolved pages frame D success :
  trial pages frame D = Returned success → frame_resolves pages frame = true.
Proof.
  unfold trial. intros ([acc flag] & Hloop & _)%bind_Returned.
  by eapply pristine_loop_resolved.
Qed.

Lemma frame_loop_resolved pages event D num_trials remaining n log r :
  frame_loop pages event D num_trials remaining n = (log, r) →
  forallb (frame_resolves pages) (trial_frames log) = true.
Proof.
  revert n log r.
  induction remaining as [|f fs IH]; intros n log r Hloop.
  { by injection Hloop as <- <-. }
  frame_loop_cases Hloop IH; simpl; try done;
    apply trial_resolved in Htrial; rewrite Htrial; done.
Qed.

Lemma event_loop_resolved pages num_trials events remaining D n log r :
  event_loop pages num_trials events remaining D n = (log, r) →
  forallb (frame_resolves pages) (trial_frames log) = true.
Proof.
  revert remaining D n log r.
  induction events as [|event events IH]; intros fs D n log r Hloop.
  { by injection Hloop as <- <-. }
  event_loop_cases Hloop; apply frame_loop_resolved in Hframes; [|done..].
  rewrite !trial_frames_app, trial_frames_update_entry. simpl.
  rewrite forallb_app, Hframes. simpl. by eapply IH.
Qed.

Lemma event_loop_tracked pages num_trials event_detector remaining D n log
    r out :
  event_loop pages num_trials (with_end_marker event_detector) remaining D n
  = (log, r) →
  r = Returned out →
  disappearances_tracked event_detector (dom D) = true.
Proof.
  revert remaining D n log r.
  induction event_detector as [|e es IH]; intros fs D n log r Hloop Hr;
    [done|].
  change (with_end_marker (e :: es)) with (Some e :: with_end_marker es)
    in Hloop.
  event_loop_cases Hloop; [|done..]. eapply IH in Hrec; [|done].
  apply update_belief_dom in Hupdate as Hdom. rewrite Hdom in Hrec.
  destruct e as [m i p|m i p|m i|m i]; simpl in *; try done.
  destruct (D !! i) eqn:Hlook; [|done].
  apply andb_true_iff. split; [|done].
  apply bool_decide_eq_true, elem_of_dom. eauto.
Qed.

(** The evaluation returns a pair of counts exactly when the key references
    of every pristine screen of the video resolve and no event reports the
    disappearance of a screen that is not tracked at that point; in every
    other case it raises [KeyError], and never anything else. *)
Theorem evaluation_completes_iff video event_detector :
  ((∃ c, evaluate_event_detector video event_detector = Returned c) ↔
   video_resolves video = true
   ∧ disappearances_tracked event_detector ∅ = true)
  ∧ (∀ e, evaluate_event_detector video event_detector = Raised e →
          e = KeyError).
Proof.
  split.
  - split.
    + intros [c Hc].
      pose proof (returned_run_tries_all_frames _ _ _ Hc) as Hframes.
      destruct (run_event_loop video event_detector)
        as (log & r & Hloop & Hlog & Heval).
      rewrite Hlog in Hframes. rewrite Heval in Hc. destruct c as [s t].
      apply evaluate_returned_inv in Hc as (fs & D & -> & _). split.
      * apply event_loop_resolved in Hloop. by rewrite Hframes in Hloop.
      * eapply event_loop_tracked in Hloop; [|done].
        by rewrite dom_empty_L in Hloop.
    + intros [Hres Htracked].
      destruct (evaluate_returns video event_detector Hres Htracked); eauto.
  - destruct (run_event_loop video event_detector)
      as (log & r & Hloop & _ & ->).
    apply event_loop_counters in Hloop as (Hno & _); [|simpl; lia].
    intros e. destruct r as [[[fs D] n]|e']; simpl; [done|].
    intros [= ->]. by destruct e.
Qed.

(** ** What each trial sees, and the score *)

Lemma frame_loop_verdicts pages event D num_trials remaining n log r :
  frame_loop pages event D num_trials remaining n = (log, r) →
  Forall (records_trial pages) log
  ∧ ∀ remaining' n', r = Returned (remaining', n') →
      n' = n + length (filter (λ frame, succeeds_at pages [] D frame)
                         (trial_frames log)).
Proof.
  revert n log r.
  induction remaining as [|f fs IH]; intros n log r Hloop.
  { injection Hloop as <- <-. split; [constructor|].
    intros ? ? [= _ <-]. simpl. lia. }
  frame_loop_cases Hloop IH.
  - split; [constructor|]. intros ? ? [= _ <-]. simpl. lia.
  - destruct Hrec as [Hall Hret]. split; [by constructor|].
    intros fs' n' ->. rewrite (Hret _ _ eq_refl). simpl.
    rewrite filter_cons_True; [simpl; lia|].
    unfold succeeds_at. simpl. by rewrite Htrial.
  - split; [by repeat constructor|]. intros ? ? [=].
  - destruct Hrec as [Hall Hret]. split; [by constructor|].
    intros fs' n' ->. rewrite (Hret _ _ eq_refl). simpl.
    rewrite filter_cons_False; [done|].
    unfold succeeds_at. simpl. rewrite Htrial. by intros [].
  - split; [constructor|]. intros ? ? [=].
Qed.

Lemma event_loop_verdicts pages num_trials events remaining D n log r :
  event_loop pages num_trials events remaining D n = (log, r) →
  Forall (records_trial pages) log.
Proof.
  revert remaining D n log r.
  induction events as [|event events IH]; intros fs D n log r Hloop.
  { injection Hloop as <- <-. constructor. }
  event_loop_cases Hloop; apply frame_loop_verdicts in Hframes as [Hall _];
    [|done..].
  apply Forall_app. split; [done|]. apply Forall_app. split.
  - destruct event; repeat constructor.
  - by eapply IH.
Qed.

Lemma belief_at_before (e : @ScreenEvent Page ScreenId) events D m :
  (m < event_frame_number e)%Z → belief_at (e :: events) D m = Returned D.
Proof.
  intros Hlt. simpl. rewrite Z.geb_leb.
  by destruct (Z.leb_spec (event_frame_number e) m); [lia|].
Qed.

Lemma belief_at_from (e : @ScreenEvent Page ScreenId) events D D' m :
  (event_frame_number e ≤ m)%Z →
  update_belief (Some e) D = Returned D' →
  belief_at (e :: events) D m = belief_at events D' m.
Proof.
  intros Hle Hupdate. cbn [belief_at]. rewrite Z.geb_leb.
  destruct (Z.leb_spec (event_frame_number e) m); [|lia].
  by rewrite Hupdate.
Qed.

(** The closed form of the event loop on frames in increasing order: every
    trial is against the belief state [belief_at] gives for its frame, and
    the successes added are those of the frames that succeed against it. *)
Lemma event_loop_closed_form pages num_trials event_detector remaining D n
    log r :
  StronglySorted (λ f g, (number f < number g)%Z) remaining →
  event_loop pages num_trials (with_end_marker event_detector) remaining D n
  = (log, r) →
  Forall (records_belief_at event_detector D) log
  ∧ ∀ remaining' D' n', r = Returned (remaining', D', n') →
      n' = n + length (filter (λ frame,
                                 succeeds_at pages event_detector D frame)
                         remaining).
Proof.
  revert remaining D n log r.
  induction event_detector as [|e es IH]; intros fs D n log r Hfs Hloop.
  { pose proof (end_marker_pass _ _ _ _ _ _ _ Hloop) as [Hagainst Hpass].
    split.
    - eapply Forall_impl; [exact Hagainst|].
      intros [f D' ok s t|]; simpl; [by intros ->|done].
    - intros fs' D' n' ->. destruct (Hpass _ _ _ eq_refl) as (Hfs' & _).
      unfold with_end_marker in Hloop. simpl in Hloop.
      destruct (frame_loop pages None D num_trials fs n)
        as [log1 [[fs1 n1]|e]] eqn:Hframes; [|done].
      injection Hloop as Hlog _ _ Hn. subst log n'.
      apply frame_loop_verdicts in Hframes as [_ Hcount].
      rewrite (right_id_L [] (++)) in Hfs'. rewrite <- Hfs'.
      exact (Hcount _ _ eq_refl). }
  change (with_end_marker (e :: es)) with (Some e :: with_end_marker es)
    in Hloop.
  event_loop_cases Hloop;
    pose proof (frame_loop_frames _ _ _ _ _ _ _ _ Hframes)
      as (Hagainst & Hdef & rest & -> & Hret).
  - destruct (Hret _ _ eq_refl) as [-> Hhead]. clear Hret.
    match goal with
    | Hu : update_belief _ _ = Returned ?x |- _ => rename x into D1
    end.
    apply StronglySorted_app in Hfs as (_ & _ & Hrest).
    assert (∀ frame, frame ∈ trial_frames l →
              (number frame < event_frame_number e)%Z) as Hbelow.
    { intros f Hf. rewrite Forall_forall in Hdef. apply Hdef in Hf.
      simpl in Hf. rewrite Z.geb_leb in Hf. by apply Z.leb_gt in Hf. }
    assert (∀ frame, frame ∈ rest →
              (event_frame_number e ≤ number frame)%Z) as Habove.
    { intros f Hf. destruct rest as [|g rest]; [by apply elem_of_nil in Hf|].
      specialize (Hhead g eq_refl). simpl in Hhead.
      apply Z.geb_le in Hhead.
      apply StronglySorted_cons in Hrest as [Hg _].
      apply elem_of_cons in Hf as [->|Hf]; [lia|].
      rewrite Forall_forall in Hg. apply Hg in Hf. lia. }
    pose proof (event_loop_frames _ _ _ _ _ _ _ _ Hrec) as (rest' & Hsplit & _).
    destruct (IH _ _ _ _ _ Hrest Hrec) as [Hall Hcount]. split.
    + apply Forall_app. split; [|constructor; [done|]].
      * apply Forall_forall. intros [f D' ok s t|] Hin; simpl; [|done].
        rewrite Forall_forall in Hagainst. apply Hagainst in Hin as Hd.
        simpl in Hd. subst D'. apply belief_at_before, Hbelow.
        apply list_elem_of_omap. eexists. split; [exact Hin|done].
      * apply Forall_forall. intros [f D' ok s t|] Hin; simpl; [|done].
        rewrite Forall_forall in Hall. apply Hall in Hin as Hb. simpl in Hb.
        rewrite <- Hb. apply belief_at_from; [|done]. apply Habove.
        rewrite Hsplit. apply elem_of_app. left.
        apply list_elem_of_omap. eexists. split; [exact Hin|done].
    + intros fs' D' n' ->. rewrite (Hcount _ _ _ eq_refl).
      apply frame_loop_verdicts in Hframes as [_ Hcount1].
      rewrite (Hcount1 _ _ eq_refl), filter_app, length_app.
      rewrite (filter_ext_elem
                 (λ frame, succeeds_at pages (e :: es) D frame)
                 (λ frame, succeeds_at pages [] D frame) (trial_frames l)).
      2:{ intros f Hf. unfold succeeds_at.
          rewrite belief_at_before by by apply Hbelow. done. }
      rewrite (filter_ext_elem
                 (λ frame, succeeds_at pages (e :: es) D frame)
                 (λ frame, succeeds_at pages es D1 frame) rest).
      2:{ intros f Hf. unfold succeeds_at.
          rewrite (belief_at_from e es D D1) by (by try apply Habove). done. }
      lia.
  - split; [|intros ? ? ? [=]].
    apply Forall_forall. intros [f D' ok s t|] Hin; simpl; [|done].
    rewrite Forall_forall in Hagainst. rewrite Forall_forall in Hdef.
    apply Hagainst in Hin as Hd.
    simpl in Hd. subst D'. apply belief_at_before.
    assert (f ∈ trial_frames l) as Hf.
    { apply list_elem_of_omap. eexists. split; [exact Hin|done]. }
    apply Hdef in Hf. simpl in Hf. rewrite Z.geb_leb in Hf.
    by apply Z.leb_gt in Hf.
  - split; [|intros ? ? ? [=]].
    apply Forall_forall. intros [f D' ok s t|] Hin; simpl; [|done].
    rewrite Forall_forall in Hagainst. rewrite Forall_forall in Hdef.
    apply Hagainst in Hin as Hd.
    simpl in Hd. subst D'. apply belief_at_before.
    assert (f ∈ trial_frames l) as Hf.
    { apply list_elem_of_omap. eexists. split; [exact Hin|done]. }
    apply Hdef in Hf. simpl in Hf. rewrite Z.geb_leb in Hf.
    by apply Z.leb_gt in Hf.
Qed.

(** On a video whose frames are in increasing order, every trial of the run
    is the trial of its frame against the belief state left by the events
    that come before the first event anchored after that frame, and the
    verdict logged is the verdict of that trial. The order of the events is
    not assumed. *)
Theorem trial_sees_belief_at video event_detector frame D success s t :
  frames_increasing (frames video) →
  TrialEntry frame D success s t ∈ evaluation_log video event_detector →
  belief_at event_detector ∅ (number frame) = Returned D
  ∧ trial (pages_index video) frame D = Returned success.
Proof.
  intros Hfs Hin.
  apply (@Sorted_StronglySorted _ _) in Hfs; [|intros ? ? ?; lia].
  destruct (run_event_loop video event_detector)
    as (log & r & Hloop & Hlog & _).
  rewrite Hlog in Hin.
  pose proof (event_loop_verdicts _ _ _ _ _ _ _ _ Hloop) as Hverdicts.
  apply event_loop_closed_form in Hloop as [Hbeliefs _]; [|done].
  rewrite Forall_forall in Hverdicts, Hbeliefs.
  apply Hverdicts in Hin as Hv. apply Hbeliefs in Hin as Hb. done.
Qed.

(** On a video whose frames are in increasing order, the number of successes
    the evaluation returns is the number of frames whose trial succeeds
    against the belief state left by the events that come before the first
    event anchored after the frame. *)
Theorem num_successes_closed_form video event_detector s t :
  frames_increasing (frames video) →
  evaluate_event_detector video event_detector = Returned (s, t) →
  s = length (filter (λ frame,
                        succeeds_at (pages_index video) event_detector ∅ frame)
                (frames video))
  ∧ t = length (frames video).
Proof.
  intros Hfs Hret.
  apply (@Sorted_StronglySorted _ _) in Hfs; [|intros ? ? ?; lia].
  destruct (run_event_loop video event_detector)
    as (log & r & Hloop & _ & Heval).
  rewrite Heval in Hret.
  apply evaluate_returned_inv in Hret as (fs & D & -> & ->).
  apply event_loop_closed_form in Hloop as [_ Hcount]; [|done].
  split; [|done]. by rewrite (Hcount _ _ _ eq_refl).
Qed.

Lemma filter_none {A} (P : A → Prop) `{!∀ x, Decision (P x)} (l : list A) :
  (∀ x, x ∈ l → ¬ P x) → filter P l = [].
Proof.
  induction l as [|x l IH]; intros Hnone; [done|].
  rewrite filter_cons_False by (apply Hnone, elem_of_cons; auto).
  apply IH. intros y Hy. apply Hnone, elem_of_cons. auto.
Qed.

(** For events in frame order, the prefix [belief_at] applies is made of
    the events anchored at or before the frame number. *)
Lemma belief_at_in_frame_order (events : list (@ScreenEvent Page ScreenId))
    D m :
  StronglySorted (λ a b, (event_frame_number a ≤ event_frame_number b)%Z)
    events →
  belief_at events D m
  = apply_events (filter (λ e, (event_frame_number e ≤ m)%Z) events) D.
Proof.
  revert D. induction events as [|e es IH]; intros D Hes; [done|].
  apply StronglySorted_cons in Hes as [Hle Hes].
  cbn [belief_at]. rewrite filter_cons, Z.geb_leb.
  destruct (Z.leb_spec (event_frame_number e) m) as [Hin|Hout].
  - rewrite decide_True by done. cbn [apply_events].
    destruct (update_belief (Some e) D) as [D'|x]; simpl; [by apply IH|done].
  - rewrite decide_False by lia.
    assert (filter (λ e0, (event_frame_number e0 ≤ m)%Z) es = []) as ->; [|done].
    apply filter_none. rewrite Forall_forall in Hle.
    intros e' He'. apply Hle in He'. lia.
Qed.

(** With the frames in increasing order and the events in frame order, the
    belief state a frame is tried against is the one the updates of the
    events anchored at that frame or before it, and of no other event, lead
    to from the empty belief state. *)
Theorem trial_sees_events_up_to_frame video event_detector frame D success
    s t :
  frames_increasing (frames video) →
  events_in_frame_order event_detector →
  TrialEntry frame D success s t ∈ evaluation_log video event_detector →
  apply_events
    (filter (λ e, (event_frame_number e ≤ number frame)%Z) event_detector) ∅
  = Returned D.
Proof.
  intros Hfs Hes Hin.
  apply (@Sorted_StronglySorted _ _) in Hfs; [|intros ? ? ?; lia].
  apply (@Sorted_StronglySorted _ _) in Hes; [|intros ? ? ?; lia].
  destruct (run_event_loop video event_detector)
    as (log & r & Hloop & Hlog & _).
  rewrite Hlog in Hin.
  apply event_loop_closed_form in Hloop as [Hbeliefs _]; [|done].
  rewrite Forall_forall in Hbeliefs. apply Hbeliefs in Hin. simpl in Hin.
  by rewrite <- belief_at_in_frame_order.
Qed.

(** ** The score of a detector that reports nothing *)

Lemma detected_pages_of_empty :
  detected_pages_of (∅ : gmap ScreenId (option Page)) = ∅.
Proof. unfold detected_pages_of. by rewrite map_to_list_empty. Qed.

Lemma trial_against_nothing pages frame success :
  trial pages frame (∅ : gmap ScreenId (option Page)) = Returned success →
  success = forallb shows_no_page (pristine_screen_detector frame).
Proof.
  intros Htrial. pose proof (trial_resolved _ _ _ _ Htrial) as Hres.
  unfold trial in Htrial. rewrite detected_pages_of_empty in Htrial.
  apply bind_Returned in Htrial as ([acc flag] & Hloop & [= <-]).
  apply pristine_loop_spec in Hloop as [_ Hflag].
  rewrite bool_decide_eq_true_2, andb_true_r.
  2:{ assert (∅ ∖ acc = (∅ : gset (option Page))) as ->.
      { apply leibniz_equiv, elem_of_equiv_empty.
        intros v [Hv _]%elem_of_difference. by apply not_elem_of_empty in Hv. }
      rewrite size_empty. lia. }
  apply eq_true_iff_eq. rewrite Hflag, forallb_forall. split.
  - intros [_ Hall] screen Hin%list_elem_of_In.
    unfold frame_resolves in Hres. rewrite forallb_forall in Hres.
    pose proof Hin as Hin'. apply list_elem_of_In, Hres in Hin'.
    apply matching_pages_returns in Hin' as [[[full incr] closest] Hm].
    apply (closest_nil_iff _ _ _ _ _ Hm).
    destruct closest as [|p closest]; [done|].
    destruct (Hall _ _ _ _ Hin Hm) as (q & _ & Hq); [done|].
    by apply not_elem_of_empty in Hq.
  - intros Hall. split; [done|]. intros screen full incr closest Hin Hm Hne.
    apply list_elem_of_In, Hall in Hin.
    by apply (closest_nil_iff _ _ _ _ _ Hm) in Hin.
Qed.

(** Against an event stream without events, the successful trials are those
    of the frames whose pristine screens show no document page: on a video
    whose key references resolve, the evaluation returns their number,
    whatever the order of the frames. *)
Theorem score_of_silent_detector video :
  video_resolves video = true →
  evaluate_event_detector (ScreenId := ScreenId) video []
  = Returned
      (length (filter (λ frame,
                         forallb shows_no_page
                           (pristine_screen_detector frame))
                 (frames video)),
       length (frames video)).
Proof.
  intros Hres.
  destruct (evaluate_returns video [] Hres eq_refl) as [s Hret].
  rewrite Hret. do 2 f_equal.
  destruct (run_event_loop video []) as (log & r & Hloop & _ & Heval).
  rewrite Heval in Hret.
  apply evaluate_returned_inv in Hret as (fs & D & -> & _).
  pose proof (end_marker_pass _ _ _ _ _ _ _ Hloop) as [_ Hpass].
  destruct (Hpass _ _ _ eq_refl) as (Hframes & _).
  pose proof (event_loop_verdicts _ _ _ _ _ _ _ _ Hloop) as Hverdicts.
  unfold with_end_marker in Hloop. simpl in Hloop.
  destruct (frame_loop (pages_index video) None ∅ (length (frames video))
              (frames video) 0) as [log1 [[fs1 n1]|e]] eqn:Hpass1; [|done].
  injection Hloop as Hlog _ _ Hn. subst log s.
  apply frame_loop_verdicts in Hpass1 as [_ Hcount].
  rewrite (Hcount _ _ eq_refl). simpl.
  rewrite (right_id_L [] (++)) in Hframes. rewrite Hframes.
  f_equal. apply filter_ext_elem. intros f Hf.
  unfold succeeds_at. simpl.
  unfold video_resolves in Hres. rewrite forallb_forall in Hres.
  apply list_elem_of_In, Hres in Hf.
  destruct (trial_returns (pages_index video) f
              (∅ : gmap ScreenId (option Page)) Hf) as [ok Hok].
  rewrite Hok. by apply trial_against_nothing in Hok as ->.
Qed.

(** ** The events are applied once each, in order *)

Lemma applied_events_trials D (log : list (@LogEntry Page ScreenId _ _)) :
  Forall (tried_against D) log → applied_events log = [].
Proof.
  induction 1 as [|[f D' ok s t|e D'] log Hx _ IH]; [done| |done].
  exact IH.
Qed.

Lemma applied_events_app (l1 l2 : list (@LogEntry Page ScreenId _ _)) :
  applied_events (l1 ++ l2) = applied_events l1 ++ applied_events l2.
Proof. apply omap_app. Qed.

Lemma event_loop_applied pages num_trials event_detector remaining D n log r :
  event_loop pages num_trials (with_end_marker event_detector) remaining D n
  = (log, r) →
  applied_events log `prefix_of` event_detector
  ∧ (∀ out, r = Returned out → applied_events log = event_detector)
  ∧ ∀ l1 e D' l2,
      log = l1 ++ UpdateEntry e D' :: l2 →
      apply_events (applied_events l1 ++ [e]) D = Returned D'.
Proof.
  revert remaining D n log r.
  induction event_detector as [|e0 es IH]; intros fs D n log r Hloop.
  { apply end_marker_pass in Hloop as [Hagainst _].
    rewrite (applied_events_trials _ _ Hagainst). split_and!; [done..|].
    intros k1 e' D' k2 ->.
    apply tried_against_not_update with (e := e') (De := D') in Hagainst.
    exfalso. apply Hagainst, elem_of_app. right. apply elem_of_cons. auto. }
  change (with_end_marker (e0 :: es)) with (Some e0 :: with_end_marker es)
    in Hloop.
  event_loop_cases Hloop;
    apply frame_loop_frames in Hframes as (Hagainst & _);
    pose proof (applied_events_trials _ _ Hagainst) as Hnone.
  - match goal with
    | Hu : update_belief _ _ = Returned ?x |- _ => rename x into D1
    end.
    destruct (IH _ _ _ _ _ Hrec) as (Hprefix & Hall & Hbeliefs).
    rewrite applied_events_app, Hnone. simpl. split_and!.
    + by apply prefix_cons.
    + intros out ->. by rewrite (Hall _ eq_refl).
    + intros k1 e D' k2 Hsplit.
      apply tried_against_not_update with (e := e) (De := D') in Hagainst.
      apply split_after_prefix in Hsplit as (k1' & -> & Hsplit); [|done].
      rewrite applied_events_app, Hnone. simpl.
      destruct k1' as [|x k1']; simpl in Hsplit.
      * injection Hsplit as -> -> ->. unfold applied_events.
        cbn [omap list_omap app apply_events]. by rewrite Hupdate.
      * injection Hsplit as <- Hsplit.
        change (applied_events (UpdateEntry e0 D1 :: k1'))
          with (e0 :: applied_events k1').
        cbn [app apply_events]. rewrite Hupdate. by eapply Hbeliefs.
  - rewrite Hnone. split_and!; [apply prefix_nil | done |].
    intros k1 e' D' k2 ->.
    apply tried_against_not_update with (e := e') (De := D') in Hagainst.
    exfalso. apply Hagainst, elem_of_app. right. apply elem_of_cons. auto.
  - rewrite Hnone. split_and!; [apply prefix_nil | done |].
    intros k1 e' D' k2 ->.
    apply tried_against_not_update with (e := e') (De := D') in Hagainst.
    exfalso. apply Hagainst, elem_of_app. right. apply elem_of_cons. auto.
Qed.

(** The updates applied over a run are those of a prefix of the event
    stream, in stream order and once each, and of the whole stream when the
    run returns, events anchored after the last frame included; the belief
    state an update leaves is what the events applied so far lead to from the
    empty belief state. *)
Theorem events_applied_once_in_order video event_detector :
  applied_events (evaluation_log video event_detector)
    `prefix_of` event_detector
  ∧ (∀ c, evaluate_event_detector video event_detector = Returned c →
          applied_events (evaluation_log video event_detector)
          = event_detector)
  ∧ ∀ l1 e D l2,
      evaluation_log video event_detector = l1 ++ UpdateEntry e D :: l2 →
      apply_events (applied_events l1 ++ [e]) ∅ = Returned D.
Proof.
  destruct (run_event_loop video event_detector)
    as (log & r & Hloop & -> & ->).
  apply event_loop_applied in Hloop as (Hprefix & Hall & Hbeliefs).
  split_and!; [done| |done].
  intros [s t] (fs & D & -> & _)%evaluate_returned_inv. by eapply Hall.
Qed.

End Properties.

(** * The page detector *)

Lemma size_list_to_set_le `{Countable A} (l : list A) :
  size (list_to_set l : gset A) ≤ length l.
Proof.
  induction l as [|x l IH]; [done|].
  rewrite list_to_set_cons, size_union_alt, size_singleton. simpl.
  assert (size (list_to_set l ∖ {[x]} : gset A) ≤ size (list_to_set l : gset A))
    as Hle.
  { apply subseteq_size. intros y [Hy _]%elem_of_difference. done. }
  lia.
Qed.

Lemma length_filter_fmap {A B} (f : A → B) (P : B → Prop)
    `{!∀ y, Decision (P y)} (l : list A) :
  length (filter P (f <$> l)) = length (filter (λ x, P (f x)) l).
Proof.
  induction l as [|x l IH]; [done|].
  rewrite fmap_cons, !filter_cons. destruct (decide (P (f x))); simpl; lia.
Qed.

Lemma keys_resolve_pointwise {Page : Type} (pages : gmap string Page)
    (screen : Screen) :
  (∀ keyref, keyref ∈ keyrefs screen →
             similarity keyref = "full" ∨ similarity keyref = "incremental" →
             is_Some (pages !! key keyref)) →
  keys_resolve pages screen = true.
Proof.
  intros Hall. unfold keys_resolve. apply forallb_forall.
  intros kr Hin%list_elem_of_In.
  destruct (String.eqb_spec (similarity kr) "full") as [Hf|Hf]; simpl.
  { apply bool_decide_eq_true, Hall; auto. }
  destruct (String.eqb_spec (similarity kr) "incremental") as [Hi|Hi]; simpl;
    [|done].
  apply bool_decide_eq_true, Hall; auto.
Qed.

Section PageDetectorProperties.

Context {Page : Type} `{Countable Page}.
Context {ScreenObject : Type} `{Countable ScreenObject}.
Context (screen_annotations : ScreenObject → Screen).
Context {Aux : Type}.

Implicit Types (pages : gmap string Page).
Implicit Types (D acc : gmap ScreenObject (option Page)).
Implicit Types (screens appeared existing disappeared
                  : list (ScreenObject * Aux)).

Lemma page_detector_loop_spec pages screens acc D :
  page_detector_loop screen_annotations pages screens acc = Returned D →
  (∀ screen, screen ∈ screens.*1 →
     ∃ full incr closest,
       matching_pages pages (screen_annotations screen)
       = Returned (full, incr, closest)
       ∧ D !! screen = Some (head closest))
  ∧ (∀ screen, screen ∉ screens.*1 → D !! screen = acc !! screen).
Proof.
  revert acc. induction screens as [|[s a] screens IH]; intros acc Hloop;
    simpl in Hloop.
  { injection Hloop as <-. split; [|done].
    intros screen Hin. by apply elem_of_nil in Hin. }
  apply bind_Returned in Hloop as ([[full incr] closest] & Hm & Hloop).
  apply IH in Hloop as [Hin Hout]. split.
  - intros screen Hscreen. rewrite fmap_cons in Hscreen. simpl in Hscreen.
    apply elem_of_cons in Hscreen as [Heq|Hscreen]; [subst screen|by apply Hin].
    destruct (decide (s ∈ screens.*1)) as [Hs|Hs]; [by apply Hin|].
    exists full, incr, closest. split; [done|].
    rewrite (Hout s Hs). apply lookup_insert_eq.
  - intros screen Hscreen. rewrite fmap_cons in Hscreen. simpl in Hscreen.
    apply not_elem_of_cons in Hscreen as [Hne Hscreen].
    rewrite (Hout screen Hscreen). by apply lookup_insert_ne.
Qed.

Lemma page_detector_loop_returns pages screens acc :
  (∀ screen, screen ∈ screens.*1 →
             keys_resolve pages (screen_annotations screen) = true) →
  ∃ D, page_detector_loop screen_annotations pages screens acc = Returned D.
Proof.
  revert acc. induction screens as [|[s a] screens IH]; intros acc Hres;
    simpl; [eauto|].
  destruct (matching_pages_returns pages (screen_annotations s))
    as [[[full incr] closest] ->]; [apply Hres, elem_of_cons; auto|].
  simpl. apply IH. intros screen Hin. apply Hres, elem_of_cons. auto.
Qed.

Lemma page_detector_loop_raises pages screens acc e :
  page_detector_loop screen_annotations pages screens acc = Raised e →
  e = KeyError.
Proof.
  revert acc. induction screens as [|[s a] screens IH]; intros acc; simpl;
    [done|].
  destruct (matching_pages pages (screen_annotations s))
    as [[[full incr] closest]|e'] eqn:Hm; simpl; [apply IH|].
  intros [= <-]. by eapply matching_pages_raises.
Qed.

(** The dictionary [AnnotatedSampledVideoPageDetector.detect] returns has
    the appeared and the existing screens as its keys, and no other, so the
    disappeared screens play no part; each screen is mapped to the first of
    its closest matches, and to [None] exactly when it shows no page. *)
Theorem page_detector_detects_first_closest_match pages frame appeared
    existing disappeared D :
  page_detector_detect screen_annotations pages frame appeared existing
    disappeared = Returned D →
  dom D = list_to_set (appeared ++ existing).*1
  ∧ ∀ screen, screen ∈ (appeared ++ existing).*1 →
      ∃ full incr closest,
        matching_pages pages (screen_annotations screen)
        = Returned (full, incr, closest)
        ∧ D !! screen = Some (head closest)
        ∧ (D !! screen = Some None ↔
           shows_no_page (screen_annotations screen) = true).
Proof.
  unfold page_detector_detect. intros [Hin Hout]%page_detector_loop_spec.
  split.
  - apply leibniz_equiv. intros screen.
    rewrite elem_of_dom, elem_of_list_to_set. split.
    + intros [v Hv].
      destruct (decide (screen ∈ (appeared ++ existing).*1)); [done|].
      rewrite (Hout screen) in Hv by done. by rewrite lookup_empty in Hv.
    + intros (? & ? & ? & _ & ->)%Hin. eauto.
  - intros screen (full & incr & closest & Hm & HD)%Hin.
    exists full, incr, closest. split; [done|]. split; [done|].
    rewrite HD, <- (closest_nil_iff _ _ _ _ _ Hm).
    destruct closest; simpl; split; intros; congruence.
Qed.

(** The page detector returns a dictionary exactly when the key references
    of every appeared and existing screen resolve, and raises [KeyError]
    otherwise, whatever the disappeared screens are. *)
Theorem page_detector_returns_iff pages frame appeared existing disappeared :
  ((∃ D, page_detector_detect screen_annotations pages frame appeared existing
           disappeared = Returned D) ↔
   ∀ screen, screen ∈ (appeared ++ existing).*1 →
             keys_resolve pages (screen_annotations screen) = true)
  ∧ ∀ e, page_detector_detect screen_annotations pages frame appeared existing
           disappeared = Raised e → e = KeyError.
Proof.
  unfold page_detector_detect. split; [split|].
  - intros [D [Hin _]%page_detector_loop_spec] screen Hscreen.
    destruct (Hin screen Hscreen) as (full & incr & closest & Hm & _).
    by eapply matching_pages_resolved.
  - apply page_detector_loop_returns.
  - intros e. apply page_detector_loop_raises.
Qed.

(** The annotation-based page detector passes the trial of the frame it is
    run on: when the screens handed to it are the annotated screens of the
    frame, every condition is one of the three legal ones and every pristine
    screen shows a page, a belief state equal to the dictionary it returns
    makes the trial of that frame a success. *)
Theorem page_detector_passes_trial pages frame appeared existing
    disappeared D :
  page_detector_detect screen_annotations pages frame appeared existing
    disappeared = Returned D →
  screen_annotations <$> (appeared ++ existing).*1 ≡ₚ screens frame →
  (∀ screen, screen ∈ screens frame →
             condition screen = "pristine" ∨ condition screen = "windowed"
             ∨ condition screen = "obstacle") →
  (∀ screen, screen ∈ screens frame → condition screen = "pristine" →
             shows_no_page screen = false) →
  trial pages frame D = Returned true.
Proof.
  unfold page_detector_detect.
  intros [Hin Hout]%page_detector_loop_spec Hscreens Hlegal Hshown.
  set (objs := (appeared ++ existing).*1) in *.
  assert (∀ screen, screen ∈ screens frame →
            ∃ o, o ∈ objs ∧ screen = screen_annotations o) as Hobj.
  { intros s Hs. rewrite <- Hscreens in Hs.
    apply list_elem_of_fmap in Hs as (o & -> & Ho). eauto. }
  assert (frame_resolves pages frame = true) as Hres.
  { unfold frame_resolves. apply forallb_forall.
    intros s [Hs _]%list_elem_of_In%pristine_screen_detector_spec.
    destruct (Hobj s Hs) as (o & Ho & ->).
    destruct (Hin o Ho) as (f & i & c & Hm & _).
    by eapply matching_pages_resolved. }
  unfold trial.
  destruct (pristine_loop_returns pages (detected_pages_of D)
              (pristine_screen_detector frame) ∅ true Hres)
    as [[acc flag] Hloop].
  rewrite Hloop. simpl. f_equal.
  apply pristine_loop_spec in Hloop as [Hacc Hflag].
  apply andb_true_iff. split.
  - apply Hflag. split; [done|]. intros s f i c Hs Hm Hne.
    apply pristine_screen_detector_spec in Hs as [Hs Hcond].
    destruct (Hobj s Hs) as (o & Ho & ->).
    destruct (Hin o Ho) as (f' & i' & c' & Hm' & HD).
    rewrite Hm in Hm'. injection Hm' as <- <- <-.
    destruct c as [|p c]; [done|]. exists p.
    split; [apply elem_of_cons; auto|].
    apply elem_of_detected_pages_of. by exists o.
  - apply bool_decide_eq_true.
    set (extras :=
           (λ o, default None (D !! o))
             <$> filter (λ o, condition (screen_annotations o) = "windowed"
                              ∨ condition (screen_annotations o) = "obstacle")
                   objs).
    trans (size (list_to_set extras : gset (option Page))).
    + apply subseteq_size. intros v [Hv Hnot]%elem_of_difference.
      apply elem_of_detected_pages_of in Hv as [o Ho].
      assert (o ∈ objs) as Hobjs.
      { destruct (decide (o ∈ objs)); [done|].
        rewrite (Hout o) in Ho by done. by rewrite lookup_empty in Ho. }
      destruct (Hin o Hobjs) as (f & i & c & Hm & HD).
      assert (screen_annotations o ∈ screens frame) as Hs.
      { rewrite <- Hscreens. by apply list_elem_of_fmap_2. }
      apply elem_of_list_to_set, list_elem_of_fmap. exists o.
      split; [by rewrite Ho|]. apply list_elem_of_filter. split; [|done].
      destruct (Hlegal _ Hs) as [Hp | [Hw | Hw]]; [exfalso | auto..].
      apply Hnot, Hacc. right. rewrite HD in Ho. injection Ho as <-.
      destruct c as [|p c].
      { assert (shows_no_page (screen_annotations o) = true) as Hnone
          by by apply (closest_nil_iff _ _ _ _ _ Hm).
        rewrite (Hshown _ Hs Hp) in Hnone. done. }
      exists (screen_annotations o), f, i, (p :: c), p.
      split_and!; [by apply pristine_screen_detector_spec | done | | done].
      apply elem_of_cons. auto.
    + etrans; [apply size_list_to_set_le|]. unfold extras.
      rewrite length_fmap, nonpristine_screen_detector_spec, <- Hscreens.
      by rewrite length_filter_fmap.
Qed.

End PageDetectorProperties.

(** * The page index *)

Lemma elem_of_concat {A} (x : A) (ls : list (list A)) :
  x ∈ concat ls ↔ ∃ l, x ∈ l ∧ l ∈ ls.
Proof.
  induction ls as [|l ls IH]; simpl.
  - split; [by intros ?%elem_of_nil | by intros (l & _ & ?%elem_of_nil)].
  - rewrite elem_of_app, IH. split.
    + intros [Hx|(l' & Hx & Hl')]; [exists l | exists l'];
        rewrite elem_of_cons; auto.
    + intros (l' & Hx & [->|Hl']%elem_of_cons); eauto.
Qed.

Section PageIndexProperties.

Context {Page : Type} (page_key : Page → string).

Implicit Types (l : list Page) (m : gmap string Page).

Lemma fold_pages_other l m k :
  (∀ q, q ∈ l → page_key q ≠ k) →
  foldl (λ pages page, <[page_key page := page]> pages) m l !! k = m !! k.
Proof.
  revert m. induction l as [|x l IH]; intros m Hother; [done|].
  simpl. rewrite IH.
  - apply lookup_insert_ne, Hother, elem_of_cons. auto.
  - intros q Hq. apply Hother, elem_of_cons. auto.
Qed.

Lemma fold_pages_sound l m k p :
  foldl (λ pages page, <[page_key page := page]> pages) m l !! k = Some p →
  (p ∈ l ∧ page_key p = k) ∨ m !! k = Some p.
Proof.
  revert m. induction l as [|x l IH]; intros m Hlook; [auto|].
  simpl in Hlook. apply IH in Hlook as [[Hp Hk]|Hlook].
  - left. split; [apply elem_of_cons; auto | done].
  - destruct (decide (page_key x = k)) as [Hx|Hx].
    + rewrite <- Hx, lookup_insert_eq in Hlook. injection Hlook as <-.
      left. split; [apply elem_of_cons; auto | done].
    + rewrite lookup_insert_ne in Hlook by done. auto.
Qed.

Lemma fold_pages_keeps l m k :
  is_Some (m !! k) →
  is_Some (foldl (λ pages page, <[page_key page := page]> pages) m l !! k).
Proof.
  revert m. induction l as [|x l IH]; intros m Hsome; [done|].
  simpl. apply IH. destruct (decide (page_key x = k)) as [<-|Hne].
  - rewrite lookup_insert_eq. eauto.
  - by rewrite lookup_insert_ne.
Qed.

Lemma fold_pages_some l m p :
  p ∈ l →
  is_Some (foldl (λ pages page, <[page_key page := page]> pages) m l
             !! page_key p).
Proof.
  revert m. induction l as [|x l IH]; intros m Hin;
    [by apply elem_of_nil in Hin|].
  simpl. apply elem_of_cons in Hin as [->|Hin]; [|by apply IH].
  apply fold_pages_keeps. rewrite lookup_insert_eq. eauto.
Qed.

Lemma fold_pages_last l1 p l2 m :
  (∀ q, q ∈ l2 → page_key q ≠ page_key p) →
  foldl (λ pages page, <[page_key page := page]> pages) m (l1 ++ p :: l2)
    !! page_key p
  = Some p.
Proof.
  intros Hlast. rewrite foldl_app. simpl.
  rewrite fold_pages_other by done. apply lookup_insert_eq.
Qed.

(** The page index of a video: a key resolves to the last page that carries
    it, in the order of the documents and of their pages, so every page is
    found under its key when the keys are unique across the documents of the
    video; every page found carries the key it is found under and belongs to
    one of the documents; and a key resolves to nothing exactly when no page
    of any document carries it. *)
Theorem build_pages_lookup (documents : list (list Page)) :
  (∀ l1 p l2,
     concat documents = l1 ++ p :: l2 →
     (∀ q, q ∈ l2 → page_key q ≠ page_key p) →
     build_pages page_key documents !! page_key p = Some p)
  ∧ (NoDup (page_key <$> concat documents) →
     ∀ document p, document ∈ documents → p ∈ document →
       build_pages page_key documents !! page_key p = Some p)
  ∧ (∀ k p, build_pages page_key documents !! k = Some p →
            page_key p = k
            ∧ ∃ document, document ∈ documents ∧ p ∈ document)
  ∧ (∀ k, build_pages page_key documents !! k = None ↔
          ∀ document p, document ∈ documents → p ∈ document →
                        page_key p ≠ k).
Proof.
  unfold build_pages. split_and!.
  - intros l1 p l2 -> Hlast. by apply fold_pages_last.
  - intros Hnodup document p Hdoc Hp.
    assert (p ∈ concat documents) as Hin by (apply elem_of_concat; eauto).
    apply list_elem_of_split in Hin as (l1 & l2 & Hsplit).
    rewrite Hsplit in Hnodup |- *. apply fold_pages_last.
    rewrite fmap_app, fmap_cons in Hnodup.
    apply NoDup_app in Hnodup as (_ & _ & Hnodup).
    apply NoDup_cons in Hnodup as [Hnotin _].
    intros q Hq Heq. apply Hnotin. rewrite <- Heq.
    by apply list_elem_of_fmap_2.
  - intros k p [[Hp Hk]|Hempty]%fold_pages_sound;
      [|by rewrite lookup_empty in Hempty].
    split; [done|]. apply elem_of_concat in Hp as (document & ? & ?).
    eauto.
  - intros k. split.
    + intros Hnone document p Hdoc Hp Hk.
      assert (p ∈ concat documents) as Hin by (apply elem_of_concat; eauto).
      destruct (fold_pages_some (concat documents) ∅ p Hin) as [q Hq].
      rewrite Hk in Hq. congruence.
    + intros Hno. rewrite fold_pages_other; [apply lookup_empty|].
      intros q (document & Hq & Hdoc)%elem_of_concat. by eapply Hno.
Qed.

(** Resolution of key references is video-wide: over the page index built
    from the documents of a video, [matching_pages] returns exactly when
    every full or incremental key reference of the screen names the key of a
    page of some document, whichever document that is; the pages it returns
    carry the keys of the references, in their order, and belong to the
    documents. *)
Theorem matching_pages_over_index (documents : list (list Page))
    (screen : Screen) :
  ((∃ r, matching_pages (build_pages page_key documents) screen = Returned r)
   ↔ ∀ keyref, keyref ∈ keyrefs screen →
       similarity keyref = "full" ∨ similarity keyref = "incremental" →
       ∃ document p, document ∈ documents ∧ p ∈ document
                     ∧ page_key p = key keyref)
  ∧ ∀ full incr closest,
      matching_pages (build_pages page_key documents) screen
      = Returned (full, incr, closest) →
      Forall2 (λ keyref page, page_key page = key keyref)
        (filter (λ keyref, similarity keyref = "full") (keyrefs screen)) full
      ∧ Forall2 (λ keyref page, page_key page = key keyref)
          (filter (λ keyref, similarity keyref = "incremental")
             (keyrefs screen)) incr
      ∧ Forall (λ page, ∃ document, document ∈ documents ∧ page ∈ document)
          (full ++ incr).
Proof.
  assert (∀ k p, build_pages page_key documents !! k = Some p →
            page_key p = k ∧ ∃ document, document ∈ documents ∧ p ∈ document)
    as Hsound.
  { unfold build_pages.
    intros k p [[Hp Hk]|Hempty]%fold_pages_sound;
      [|by rewrite lookup_empty in Hempty].
    split; [done|]. apply elem_of_concat in Hp as (document & ? & ?). eauto. }
  split; [split|].
  - intros [r Hr%matching_pages_resolved] kr Hkr Hsim.
    destruct (keys_resolve_spec _ _ Hr kr Hkr Hsim) as [p Hp].
    apply Hsound in Hp as (Hk & document & Hdoc & Hin). eauto.
  - intros Hall. apply matching_pages_returns, keys_resolve_pointwise.
    intros kr Hkr Hsim.
    destruct (Hall kr Hkr Hsim) as (document & p & Hdoc & Hp & <-).
    unfold build_pages. apply fold_pages_some, elem_of_concat. eauto.
  - intros full incr closest (Hfull & Hincr & _)%matching_pages_inv.
    apply pages_with_similarity_inv in Hfull, Hincr. split_and!.
    + eapply Forall2_impl; [exact Hfull|]. intros kr p Hp.
      by apply Hsound in Hp as [? _].
    + eapply Forall2_impl; [exact Hincr|]. intros kr p Hp.
      by apply Hsound in Hp as [? _].
    + apply Forall_app. split.
      * apply Forall_forall. intros p Hp.
        apply list_elem_of_lookup in Hp as [i Hi].
        destruct (Forall2_lookup_r _ _ _ _ _ Hfull Hi) as (kr & _ & Hlook).
        by apply Hsound in Hlook as [_ ?].
      * apply Forall_forall. intros p Hp.
        apply list_elem_of_lookup in Hp as [i Hi].
        destruct (Forall2_lookup_r _ _ _ _ _ Hincr Hi) as (kr & _ & Hlook).
        by apply Hsound in Hlook as [_ ?].
Qed.

End PageIndexProperties.

(** * Independence of the hash order *)

Section HashOrderProperties.

Context {Page : Type} `{Countable Page}.
Context {ScreenId : Type} `{Countable ScreenId}.
Context (arrange : list (option Page) → list (option Page)).

(** Whatever the order, a set iterates over its elements, each once. *)
Hypothesis arrange_permutes : ∀ l, arrange l ≡ₚ l.

Implicit Types (a b l : list (option Page)) (A B : gset (option Page)).

Lemma holds_arrange l A : holds l A → holds (arrange l) A.
Proof.
  intros [Hnodup Helem]. split.
  - by rewrite arrange_permutes.
  - intros x. by rewrite arrange_permutes.
Qed.

Lemma hashed_set_holds l : holds (hashed_set arrange l) (list_to_set l).
Proof.
  apply holds_arrange. split; [apply NoDup_remove_dups|].
  intros x. by rewrite elem_of_remove_dups, elem_of_list_to_set.
Qed.

Lemma hashed_intersection_holds a b A B :
  holds a A → holds b B → holds (hashed_intersection arrange a b) (A ∩ B).
Proof.
  intros [Hnodup Ha] [_ Hb]. apply holds_arrange.
  split; [by apply NoDup_filter|].
  intros x. rewrite list_elem_of_filter, elem_of_intersection, Ha, Hb. tauto.
Qed.

Lemma hashed_difference_holds a b A B :
  holds a A → holds b B → holds (hashed_difference arrange a b) (A ∖ B).
Proof.
  intros [Hnodup Ha] [_ Hb]. apply holds_arrange.
  split; [by apply NoDup_filter|].
  intros x. rewrite list_elem_of_filter, elem_of_difference, Ha, Hb. tauto.
Qed.

Lemma hashed_union_holds a b A B :
  holds a A → holds b B → holds (hashed_union arrange a b) (A ∪ B).
Proof.
  intros [Hnodupa Ha] [Hnodupb Hb]. apply holds_arrange. split.
  - apply NoDup_app. split_and!; [done| |by apply NoDup_filter].
    intros x Hx [Hnot _]%list_elem_of_filter. done.
  - intros x. rewrite elem_of_app, list_elem_of_filter, elem_of_union, Ha, Hb.
    destruct (decide (x ∈ A)); tauto.
Qed.

Lemma hashed_truth_holds a A :
  holds a A → hashed_truth a = bool_decide (A ≠ ∅).
Proof.
  intros [_ Ha]. destruct a as [|x a]; simpl.
  - rewrite bool_decide_eq_false_2; [done|]. intros Hne. apply Hne.
    apply leibniz_equiv, elem_of_equiv_empty. intros x Hx.
    apply Ha in Hx. by apply elem_of_nil in Hx.
  - rewrite bool_decide_eq_true_2; [done|]. intros Hempty.
    assert (x ∈ A) as Hx by (apply Ha, elem_of_cons; auto).
    rewrite Hempty in Hx. by apply not_elem_of_empty in Hx.
Qed.

Lemma holds_length a A : holds a A → length a = size A.
Proof.
  intros [Hnodup Ha].
  assert (A = list_to_set a) as ->.
  { apply leibniz_equiv. intros x. by rewrite elem_of_list_to_set, Ha. }
  by rewrite size_list_to_set.
Qed.

Lemma pristine_loop_hashed_spec (pages : gmap string Page) dl ds
    pristine_screens al acc flag :
  holds dl ds → holds al acc →
  match pristine_loop_hashed arrange pages dl pristine_screens al flag with
  | Returned (al', flag') =>
      ∃ acc', pristine_loop pages ds pristine_screens acc flag
              = Returned (acc', flag')
              ∧ holds al' acc'
  | Raised e => pristine_loop pages ds pristine_screens acc flag = Raised e
  end.
Proof.
  intros Hd. revert al acc flag.
  induction pristine_screens as [|s ss IH]; intros al acc flag Ha; simpl.
  { eauto. }
  destruct (matching_pages pages s) as [[[full incr] closest]|e]; simpl;
    [|done].
  pose proof (hashed_set_holds (Some <$> closest)) as Hc.
  fold (page_set closest) in Hc.
  rewrite (hashed_truth_holds _ _ Hc).
  rewrite (hashed_truth_holds _ _ (hashed_intersection_holds _ _ _ _ Hd Hc)).
  assert (negb (bool_decide (ds ∩ page_set closest ≠ ∅))
          = bool_decide (ds ∩ page_set closest = ∅)) as ->.
  { destruct (decide (ds ∩ page_set closest = ∅)) as [Heq|Hne].
    - rewrite (bool_decide_eq_true_2 _ Heq).
      rewrite bool_decide_eq_false_2; [done|]. by intros Hne.
    - rewrite (bool_decide_eq_false_2 _ Hne).
      by rewrite bool_decide_eq_true_2. }
  apply IH. by apply hashed_union_holds.
Qed.

(** A trial gives the same verdict, or raises the same exception, whatever
    the order of the sets. *)
Lemma trial_hashed_eq (pages : gmap string Page) frame
    (D : gmap ScreenId (option Page)) :
  trial_hashed arrange pages frame D = trial pages frame D.
Proof.
  unfold trial_hashed, trial.
  pose proof (hashed_set_holds (snd <$> map_to_list D)) as Hd.
  fold (detected_pages_of D) in Hd.
  assert (holds (hashed_set arrange []) ∅) as Hempty.
  { exact (hashed_set_holds []). }
  pose proof (pristine_loop_hashed_spec pages _ _
                (pristine_screen_detector frame) _ _ true Hd Hempty) as Hloop.
  destruct (pristine_loop_hashed _ _ _ _ _ _) as [[al flag]|e].
  - destruct Hloop as (acc & -> & Hacc). simpl.
    by rewrite (holds_length _ _ (hashed_difference_holds _ _ _ _ Hd Hacc)).
  - by rewrite Hloop.
Qed.

Lemma frame_loop_hashed_eq (pages : gmap string Page)
    (event : option (@ScreenEvent Page ScreenId)) D num_trials remaining n :
  frame_loop_hashed arrange pages event D num_trials remaining n
  = (frame_loop pages event D num_trials remaining n).2.
Proof.
  revert n. induction remaining as [|f fs IH]; intros n; simpl; [done|].
  destruct (deferred event f); [done|]. rewrite trial_hashed_eq.
  destruct (trial pages f D) as [[|]|e]; simpl; [| |done].
  - case_bool_decide; [|done]. rewrite IH.
    by destruct (frame_loop pages event D num_trials fs (S n)).
  - rewrite IH. by destruct (frame_loop pages event D num_trials fs n).
Qed.

Lemma event_loop_hashed_eq (pages : gmap string Page) num_trials
    (events : list (option (@ScreenEvent Page ScreenId))) remaining D n :
  event_loop_hashed arrange pages num_trials events remaining D n
  = (event_loop pages num_trials events remaining D n).2.
Proof.
  revert remaining D n.
  induction events as [|event events IH]; intros fs D n; [done|].
  rewrite event_loop_cons. cbn [event_loop_hashed].
  rewrite frame_loop_hashed_eq.
  destruct (frame_loop pages event D num_trials fs n)
    as [log1 [[fs' n']|e]]; simpl; [|done].
  destruct (update_belief event D) as [D'|e]; simpl; [|done].
  rewrite IH. by destruct (event_loop pages num_trials events fs' D' n').
Qed.

Lemma evaluate_event_detector_hashed_eq (video : @AnnotatedSampledVideo Page)
    (event_detector : list (@ScreenEvent Page ScreenId)) :
  evaluate_event_detector_hashed arrange video event_detector
  = evaluate_event_detector video event_detector.
Proof.
  unfold evaluate_event_detector_hashed, evaluate_event_detector, run.
  rewrite event_loop_hashed_eq.
  by destruct (event_loop _ _ _ _ _ _).
Qed.

End HashOrderProperties.

(** C8. The outcome of an evaluation is determined by the video and the
    ordered event stream: two runs in which the sets iterate in different
    orders, as they do under different hash seeds, return the same pair of
    counts, or raise the same exception; the evaluation takes no other input,
    no random number and no clock among them. *)
Theorem evaluation_independent_of_hash_order {Page : Type} `{Countable Page}
    {ScreenId : Type} `{Countable ScreenId}
    (arrange1 arrange2 : list (option Page) → list (option Page))
    (video : @AnnotatedSampledVideo Page)
    (event_detector : list (@ScreenEvent Page ScreenId)) :
  (∀ l, arrange1 l ≡ₚ l) →
  (∀ l, arrange2 l ≡ₚ l) →
  evaluate_event_detector_hashed arrange1 video event_detector
  = evaluate_event_detector_hashed arrange2 video event_detector
  ∧ evaluate_event_detector_hashed arrange1 video event_detector
    = evaluate_event_detector video event_detector.
Proof.
  intros Harrange1 Harrange2.
  by rewrite !evaluate_event_detector_hashed_eq.
Qed.

(** * The theorems at the example data *)

(** The scenarios of the specification, run on the model. *)

(** No event: the pristine screen of each frame is left uncorroborated. *)
Example scenario_no_events :
  evaluate_event_detector (ScreenId := nat) example_video [] = Returned (0, 2).
Proof. vm_compute. reflexivity. Qed.

(** An appearance anchored at frame 2 is applied after the trial of frame 1
    and before the trial of frame 2. *)
Example scenario_appeared :
  run example_video [example_appeared]
  = ([ TrialEntry example_frame_1 ∅ false 0 2;
       UpdateEntry example_appeared example_belief;
       TrialEntry example_frame_2 example_belief true 1 2 ],
     Returned (1, 2)).
Proof. vm_compute. reflexivity. Qed.

(** An appearance anchored at frame 1 is applied before the trial of
    frame 1. *)
Example scenario_appeared_at_first_frame :
  evaluate_event_detector example_video
    [ScreenAppearedEvent 1 0 (Some "pageX")]
  = Returned (2, 2).
Proof. vm_compute. reflexivity. Qed.

(** One unrelated page is allowed for the windowed screen of frame 2, two
    are not. *)
Example scenario_one_extra_page :
  trial example_pages example_frame_2
    ({[ 0 := Some "pageX"; 1 := Some "pageY" ]} : gmap nat (option string))
  = Returned true.
Proof. vm_compute. reflexivity. Qed.

Example scenario_two_extra_pages :
  trial example_pages example_frame_2
    ({[ 0 := Some "pageX"; 1 := Some "pageY"; 2 := Some "pageZ" ]}
       : gmap nat (option string))
  = Returned false.
Proof. vm_compute. reflexivity. Qed.

(** A full and an incremental key reference: the incremental one is not a
    closest match. *)
Example scenario_full_and_incremental :
  matching_pages example_pages example_pristine_screen
  = Returned (["pageX"], ["pageY"], ["pageX"]).
Proof. vm_compute. reflexivity. Qed.

(** A key reference to a page the index does not have. *)
Example scenario_unknown_key :
  matching_pages example_pages
    {| condition := "pristine"; is_beyond_bounds := false;
       keyrefs := [ {| key := "kq"; similarity := "incremental" |} ] |}
  = Raised KeyError.
Proof. vm_compute. reflexivity. Qed.

(** The order of the events matters for the synchronisation: when an event
    anchored at frame 3 precedes one anchored at frame 1, both frames are
    tried before the update of the latter. *)
Example scenario_events_out_of_order :
  evaluation_log example_video
    [ScreenAppearedEvent 3 0 (Some "pageX");
     ScreenAppearedEvent 1 1 (Some "pageY")]
  = [ TrialEntry example_frame_1 ∅ false 0 2;
      TrialEntry example_frame_2 ∅ false 0 2;
      UpdateEntry (ScreenAppearedEvent 3 0 (Some "pageX")) example_belief;
      UpdateEntry (ScreenAppearedEvent 1 1 (Some "pageY"))
        {[ 0 := Some "pageX"; 1 := Some "pageY" ]} ].
Proof. vm_compute. reflexivity. Qed.

(** [trial_succeeds_iff] at the second example frame, with page X believed on
    screen 0. *)
Lemma trial_succeeds_iff_witness :
  frame_resolves example_pages example_frame_2 = true
  ∧ ∃ success,
      trial example_pages example_frame_2 example_belief = Returned success
      ∧ (success = true ↔
         (∀ screen full incr closest,
            screen ∈ screens example_frame_2 →
            condition screen = "pristine" →
            matching_pages example_pages screen
            = Returned (full, incr, closest) →
            closest ≠ [] →
            ∃ page screen_id,
              page ∈ closest ∧ example_belief !! screen_id = Some (Some page))
         ∧ ∃ extra : gset (option string),
             (∀ v, v ∈ extra ↔
                   (∃ screen_id, example_belief !! screen_id = Some v)
                   ∧ ¬ ∃ screen full incr closest page,
                         screen ∈ screens example_frame_2
                         ∧ condition screen = "pristine"
                         ∧ matching_pages example_pages screen
                           = Returned (full, incr, closest)
                         ∧ page ∈ closest ∧ v = Some page)
             ∧ size extra
               ≤ length (filter (λ screen, condition screen = "windowed"
                                           ∨ condition screen = "obstacle")
                           (screens example_frame_2))).
Proof.
  split; [reflexivity|].
  apply (trial_succeeds_iff example_pages example_frame_2 example_belief).
  reflexivity.
Defined.




(** A [None] stored by an appearance event is a detected page: the set used
    at the trial is not the set of non-null pages, and the [None] makes the
    trial of a frame without screens fail. *)
Lemma null_page_counterexample :
  update_belief (Some (ScreenAppearedEvent 1 0 None))
    (∅ : gmap nat (option string))
  = Returned {[ 0 := None ]}
  ∧ detected_pages_of ({[ 0 := None ]} : gmap nat (option string))
    = {[ None ]}
  ∧ nonnull_pages_spec ({[ 0 := None ]} : gmap nat (option string)) = ∅
  ∧ detected_pages_of ({[ 0 := None ]} : gmap nat (option string))
    ≠ nonnull_pages_spec {[ 0 := None ]}
  ∧ evaluate_event_detector example_bare_video [ScreenAppearedEvent 1 0 None]
    = Returned (0, 1)
  ∧ evaluate_event_detector (ScreenId := nat) example_bare_video []
    = Returned (1, 1).
Proof.
  assert (detected_pages_of ({[ 0 := None ]} : gmap nat (option string))
          = {[ None ]}) as Hdetected by (vm_compute; reflexivity).
  assert (nonnull_pages_spec ({[ 0 := None ]} : gmap nat (option string)) = ∅)
    as Hspec by (vm_compute; reflexivity).
  split_and!; [reflexivity | exact Hdetected | exact Hspec | |
               vm_compute; reflexivity..].
  rewrite Hdetected, Hspec. apply non_empty_singleton_L.
Qed.

(** [num_trials_is_number_of_frames] at the example video. *)
Lemma num_trials_is_number_of_frames_witness :
  video_resolves example_video = true
  ∧ disappearances_tracked [example_appeared] ∅ = true
  ∧ (∀ s t, evaluate_event_detector example_video [example_appeared]
            = Returned (s, t) → t = 2)
  ∧ ∃ s, evaluate_event_detector example_video [example_appeared]
         = Returned (s, 2).
Proof.
  split; [reflexivity|]. split; [reflexivity|].
  destruct (num_trials_is_number_of_frames example_video [example_appeared])
    as [Hany Hreturns].
  split; [exact Hany|]. apply Hreturns; reflexivity.
Defined.

(** [closest_matches_fallback] at the pristine example screen, which has a
    full and an incremental key reference. *)
Lemma closest_matches_fallback_witness :
  keys_resolve example_pages example_pristine_screen = true
  ∧ ∃ full incr closest,
      matching_pages example_pages example_pristine_screen
      = Returned (full, incr, closest)
      ∧ (full ≠ [] → closest = full)
      ∧ (full = [] → closest = incr)
      ∧ (∀ p, p ∈ full ↔
              fully_matches example_pages example_pristine_screen p)
      ∧ (∀ p, p ∈ incr ↔
              incrementally_matches example_pages example_pristine_screen p)
      ∧ (∀ p, p ∈ closest ↔
              fully_matches example_pages example_pristine_screen p
              ∨ (¬ (∃ p', fully_matches example_pages
                            example_pristine_screen p')
                 ∧ incrementally_matches example_pages
                     example_pristine_screen p)).
Proof.
  split; [reflexivity|].
  apply (closest_matches_fallback example_pages example_pristine_screen).
  reflexivity.
Defined.

(** [every_frame_tried_once] at the example video. *)
Lemma every_frame_tried_once_witness :
  video_resolves example_video = true
  ∧ disappearances_tracked [example_appeared] ∅ = true
  ∧ trial_frames (evaluation_log example_video [example_appeared])
    = frames example_video
  ∧ ∃ log_events remaining D n flush,
      event_loop (pages_index example_video) (length (frames example_video))
        (Some <$> [example_appeared]) (frames example_video) ∅ 0
      = (log_events, Returned (remaining, D, n))
      ∧ evaluation_log example_video [example_appeared] = log_events ++ flush
      ∧ trial_frames flush = remaining
      ∧ Forall (tried_against D) flush.
Proof.
  split; [reflexivity|]. split; [reflexivity|].
  apply (every_frame_tried_once example_video [example_appeared]);
    reflexivity.
Defined.

(** [update_touches_only_event_screen] at the appearance of screen 0, read at
    screen 1. *)
Lemma update_touches_only_event_screen_witness :
  update_belief (Some example_appeared) ({[ 1 := None ]} : gmap nat (option string))
  = Returned (<[ 0 := Some "pageX" ]> {[ 1 := None ]})
  ∧ (∀ e, Some example_appeared = Some e → 1 ≠ event_screen_id e)
  ∧ (<[ 0 := Some "pageX" ]> {[ 1 := None ]} : gmap nat (option string)) !! 1
    = ({[ 1 := None ]} : gmap nat (option string)) !! 1.
Proof.
  assert (∀ e, Some example_appeared = Some e → 1 ≠ event_screen_id e)
    as Hother.
  { intros e [= <-]. simpl. lia. }
  split; [reflexivity|]. split; [exact Hother|].
  exact (update_touches_only_event_screen (Some example_appeared)
           {[ 1 := None ]} _ 1 eq_refl Hother).
Defined.

(** A [None] among the values of the belief state is counted by the trial:
    on a frame without screens, with [None] believed on one screen, the
    success condition worded over the non-null pages holds, and the trial
    fails. *)
Lemma trial_counts_null_page_counterexample :
  trial_success_spec example_pages example_bare_frame
    ({[ 0 := None ]} : gmap nat (option string))
  ∧ trial example_pages example_bare_frame
      ({[ 0 := None ]} : gmap nat (option string))
    = Returned false
  ∧ ¬ (trial example_pages example_bare_frame
         ({[ 0 := None ]} : gmap nat (option string))
       = Returned true ↔
       trial_success_spec example_pages example_bare_frame
         ({[ 0 := None ]} : gmap nat (option string))).
Proof.
  assert (trial_success_spec example_pages example_bare_frame
            ({[ 0 := None ]} : gmap nat (option string))) as Hspec.
  { split.
    - intros screen full incr closest Hin. by apply elem_of_nil in Hin.
    - exists ∅. split; [|rewrite size_empty; lia].
      intros v. split; [by intros ?%not_elem_of_empty|].
      assert (nonnull_pages_spec ({[ 0 := None ]} : gmap nat (option string))
              = ∅) as -> by (vm_compute; reflexivity).
      by intros [?%not_elem_of_empty _]. }
  assert (trial example_pages example_bare_frame
            ({[ 0 := None ]} : gmap nat (option string))
          = Returned false) as Htrial by (vm_compute; reflexivity).
  split; [exact Hspec|]. split; [exact Htrial|].
  intros [_ Hiff]. apply Hiff in Hspec. rewrite Htrial in Hspec.
  discriminate.
Qed.

(** A stream whose one event reports the disappearance of a screen that
    never appeared: the first frame is tried, the update raises, and no
    [num_trials] is returned. *)
Lemma num_trials_not_returned_counterexample :
  run example_video [ScreenDisappearedEvent 2 3]
  = ([TrialEntry example_frame_1 (∅ : gmap nat (option string)) false 0 2],
     Raised KeyError)
  ∧ ¬ ∃ s, evaluate_event_detector example_video [ScreenDisappearedEvent 2 3]
           = Returned (s, length (frames example_video)).
Proof.
  assert (run example_video [ScreenDisappearedEvent 2 3]
          = ([TrialEntry example_frame_1 (∅ : gmap nat (option string))
                false 0 2],
             Raised KeyError)) as Hrun by (vm_compute; reflexivity).
  split; [exact Hrun|]. intros [s Hs].
  unfold evaluate_event_detector in Hs. rewrite Hrun in Hs. discriminate.
Qed.

(** An appearance followed by the disappearance of another screen, anchored
    at frame 2: frame 1 is tried, the update raises, and frame 2 is never
    tried. *)
Lemma frame_left_untried_counterexample :
  run example_video
    [ScreenAppearedEvent 1 0 (Some "pageX"); ScreenDisappearedEvent 2 7]
  = ([ UpdateEntry (ScreenAppearedEvent 1 0 (Some "pageX")) example_belief;
       TrialEntry example_frame_1 example_belief true 1 2 ],
     Raised KeyError)
  ∧ trial_frames
      (evaluation_log example_video
         [ScreenAppearedEvent 1 0 (Some "pageX"); ScreenDisappearedEvent 2 7])
    = [example_frame_1]
  ∧ trial_frames
      (evaluation_log example_video
         [ScreenAppearedEvent 1 0 (Some "pageX"); ScreenDisappearedEvent 2 7])
    ≠ frames example_video.
Proof.
  assert (trial_frames
            (evaluation_log example_video
               [ScreenAppearedEvent 1 0 (Some "pageX");
                ScreenDisappearedEvent 2 7])
          = [example_frame_1]) as Htried by (vm_compute; reflexivity).
  split; [vm_compute; reflexivity|]. split; [exact Htried|].
  rewrite Htried. discriminate.
Qed.

(** Two orders give two different lists for the same set. *)
Example scenario_hash_orders_differ :
  hashed_set (λ l, l) [Some "pageX"; Some "pageY"]
  ≠ hashed_set reverse [Some "pageX"; Some "pageY"].
Proof. vm_compute. discriminate. Qed.

(** [evaluation_independent_of_hash_order] at the example video, with the
    sets in the order of insertion in one run and in the opposite order in
    the other. *)
Lemma evaluation_independent_of_hash_order_witness :
  (∀ l : list (option string), l ≡ₚ l)
  ∧ (∀ l : list (option string), reverse l ≡ₚ l)
  ∧ evaluate_event_detector_hashed (λ l, l) example_video [example_appeared]
    = evaluate_event_detector_hashed reverse example_video [example_appeared]
  ∧ evaluate_event_detector_hashed (λ l, l) example_video [example_appeared]
    = evaluate_event_detector example_video [example_appeared].
Proof.
  assert (∀ l : list (option string), l ≡ₚ l) as Hsame.
  { intros l. reflexivity. }
  assert (∀ l : list (option string), reverse l ≡ₚ l) as Hreverse.
  { intros l. apply reverse_Permutation. }
  split; [exact Hsame|]. split; [exact Hreverse|].
  exact (evaluation_independent_of_hash_order (λ l, l) reverse example_video
           [example_appeared] Hsame Hreverse).
Defined.

(** ** The further properties at the example data *)

(** The page index built from the example documents is the example index. *)
Example scenario_build_pages :
  build_pages example_page_key example_documents = example_pages.
Proof. vm_compute. reflexivity. Qed.

(** Events out of frame order: frame 2 is tried against the belief state
    before the first event anchored after it, which here is the first. *)
Example scenario_belief_at_out_of_order :
  belief_at
    [ScreenAppearedEvent 3 0 (Some "pageX");
     ScreenAppearedEvent 1 1 (Some "pageY")]
    (∅ : gmap nat (option string)) 2
  = Returned ∅.
Proof. vm_compute. reflexivity. Qed.

(** A pristine screen without key references makes the page detector fail
    its own trial: the [None] it detects counts as an extra page. *)
Example scenario_page_detector_on_bare_pristine_screen :
  trial example_pages
    {| number := 1;
       screens := [ {| condition := "pristine"; is_beyond_bounds := false;
                       keyrefs := [] |} ] |}
    ({[ 0 := None ]} : gmap nat (option string))
  = Returned false.
Proof. vm_compute. reflexivity. Qed.

Lemma pristine_and_nonpristine_views_witness :
  (∀ screen, screen ∈ screens example_frame_2 →
             condition screen = "pristine" ∨ condition screen = "windowed"
             ∨ condition screen = "obstacle")
  ∧ pristine_screen_detector example_frame_2
    ++ nonpristine_screen_detector example_frame_2
    ≡ₚ screens example_frame_2.
Proof.
  assert (∀ screen, screen ∈ screens example_frame_2 →
            condition screen = "pristine" ∨ condition screen = "windowed"
            ∨ condition screen = "obstacle") as Hlegal.
  { intros screen Hin. simpl in Hin.
    apply elem_of_cons in Hin as [->|Hin]; [auto|].
    apply elem_of_cons in Hin as [->|Hin]; [auto|].
    by apply elem_of_nil in Hin. }
  split; [exact Hlegal|].
  destruct (pristine_and_nonpristine_views example_frame_2)
    as (_ & _ & _ & _ & _ & _ & Hall).
  exact (Hall Hlegal).
Defined.

Lemma matching_pages_in_keyref_order_witness :
  matching_pages example_pages example_pristine_screen
  = Returned (["pageX"], ["pageY"], ["pageX"])
  ∧ Forall2 (λ keyref page, example_pages !! key keyref = Some page)
      (filter (λ keyref, similarity keyref = "full")
         (keyrefs example_pristine_screen)) ["pageX"]
  ∧ Forall2 (λ keyref page, example_pages !! key keyref = Some page)
      (filter (λ keyref, similarity keyref = "incremental")
         (keyrefs example_pristine_screen)) ["pageY"]
  ∧ (["pageX"] = [] ↔ shows_no_page example_pristine_screen = true).
Proof.
  split; [reflexivity|].
  apply (matching_pages_in_keyref_order example_pages example_pristine_screen).
  reflexivity.
Defined.

Lemma disappearance_then_reappearance_witness :
  update_belief (Some (ScreenDisappearedEvent 3 0)) example_belief
  = Returned ∅
  ∧ (∅ : gmap nat (option string)) !! 0 = None
  ∧ (∀ n', update_belief (Some (ScreenDisappearedEvent n' 0))
             (∅ : gmap nat (option string))
           = Raised KeyError)
  ∧ ∃ page,
      example_belief !! 0 = Some page
      ∧ ∀ n', update_belief (Some (ScreenAppearedEvent n' 0 page)) ∅
              = Returned example_belief.
Proof.
  split; [reflexivity|].
  apply (disappearance_then_reappearance example_belief ∅ 3%Z 0).
  reflexivity.
Defined.

Lemma trial_reads_only_values_witness :
  (∀ v, (∃ i, example_belief !! i = Some v) ↔
        (∃ j, ({[ 5 := Some "pageX"; 6 := Some "pageX" ]}
                 : gmap nat (option string)) !! j = Some v))
  ∧ trial example_pages example_frame_2 example_belief
    = trial example_pages example_frame_2
        ({[ 5 := Some "pageX"; 6 := Some "pageX" ]}
           : gmap nat (option string)).
Proof.
  assert (∀ v, (∃ i, example_belief !! i = Some v) ↔
               (∃ j, ({[ 5 := Some "pageX"; 6 := Some "pageX" ]}
                        : gmap nat (option string)) !! j = Some v))
    as Hvalues.
  { intros v. split.
    - intros [i Hi]. unfold example_belief in Hi.
      apply lookup_singleton_Some in Hi as [_ <-]. exists 5. reflexivity.
    - intros [j Hj]. apply lookup_insert_Some in Hj as [[_ <-]|[_ Hj]].
      + exists 0. reflexivity.
      + apply lookup_singleton_Some in Hj as [_ <-]. exists 0. reflexivity. }
  split; [exact Hvalues|].
  exact (trial_reads_only_values example_pages example_frame_2 _ _ Hvalues).
Defined.

Lemma trial_sees_belief_at_witness :
  frames_increasing (frames example_video)
  ∧ TrialEntry example_frame_2 example_belief true 1 2
    ∈ evaluation_log example_video [example_appeared]
  ∧ belief_at [example_appeared] ∅ (number example_frame_2)
    = Returned example_belief
  ∧ trial (pages_index example_video) example_frame_2 example_belief
    = Returned true.
Proof.
  assert (frames_increasing (frames example_video)) as Hfs.
  { repeat constructor. }
  assert (TrialEntry example_frame_2 example_belief true 1 2
          ∈ evaluation_log example_video [example_appeared]) as Hin.
  { apply list_elem_of_In. vm_compute. right. right. left. reflexivity. }
  split; [exact Hfs|]. split; [exact Hin|].
  exact (trial_sees_belief_at example_video [example_appeared] _ _ _ _ _
           Hfs Hin).
Defined.

Lemma num_successes_closed_form_witness :
  frames_increasing (frames example_video)
  ∧ evaluate_event_detector example_video [example_appeared]
    = Returned (1, 2)
  ∧ 1 = length (filter (λ frame,
                          succeeds_at (pages_index example_video)
                            [example_appeared] ∅ frame)
                  (frames example_video))
  ∧ 2 = length (frames example_video).
Proof.
  assert (frames_increasing (frames example_video)) as Hfs.
  { repeat constructor. }
  assert (evaluate_event_detector example_video [example_appeared]
          = Returned (1, 2)) as Hret.
  { vm_compute. reflexivity. }
  split; [exact Hfs|]. split; [exact Hret|].
  exact (num_successes_closed_form example_video [example_appeared] 1 2
           Hfs Hret).
Defined.

Lemma trial_sees_events_up_to_frame_witness :
  frames_increasing (frames example_video)
  ∧ events_in_frame_order [example_appeared]
  ∧ TrialEntry example_frame_1 ∅ false 0 2
    ∈ evaluation_log example_video [example_appeared]
  ∧ apply_events
      (filter (λ e, (event_frame_number e ≤ number example_frame_1)%Z)
         [example_appeared]) ∅
    = Returned ∅.
Proof.
  assert (frames_increasing (frames example_video)) as Hfs.
  { repeat constructor. }
  assert (events_in_frame_order [example_appeared]) as Hes.
  { repeat constructor. }
  assert (TrialEntry example_frame_1 ∅ false 0 2
          ∈ evaluation_log example_video [example_appeared]) as Hin.
  { apply list_elem_of_In. vm_compute. left. reflexivity. }
  split; [exact Hfs|]. split; [exact Hes|]. split; [exact Hin|].
  exact (trial_sees_events_up_to_frame example_video [example_appeared]
           _ _ _ _ _ Hfs Hes Hin).
Defined.

Lemma score_of_silent_detector_witness :
  video_resolves example_video = true
  ∧ evaluate_event_detector (ScreenId := nat) example_video []
    = Returned
        (length (filter (λ frame,
                           forallb shows_no_page
                             (pristine_screen_detector frame))
                   (frames example_video)),
         length (frames example_video)).
Proof.
  split; [reflexivity|].
  apply (score_of_silent_detector example_video). reflexivity.
Defined.

Lemma page_detector_detects_first_closest_match_witness :
  page_detector_detect example_screen_annotations example_pages
    example_frame_2 [(0, tt)] [(1, tt)] [(2, tt)]
  = Returned example_detected
  ∧ dom example_detected = list_to_set ([(0, tt)] ++ [(1, tt)]).*1
  ∧ ∀ screen, screen ∈ ([(0, tt)] ++ [(1, tt)]).*1 →
      ∃ full incr closest,
        matching_pages example_pages (example_screen_annotations screen)
        = Returned (full, incr, closest)
        ∧ example_detected !! screen = Some (head closest)
        ∧ (example_detected !! screen = Some None ↔
           shows_no_page (example_screen_annotations screen) = true).
Proof.
  split; [vm_compute; reflexivity|].
  apply (page_detector_detects_first_closest_match example_screen_annotations
           example_pages example_frame_2 [(0, tt)] [(1, tt)] [(2, tt)]).
  vm_compute. reflexivity.
Defined.

Lemma page_detector_passes_trial_witness :
  page_detector_detect example_screen_annotations example_pages
    example_frame_2 [(0, tt)] [(1, tt)] []
  = Returned example_detected
  ∧ example_screen_annotations <$> ([(0, tt)] ++ [(1, tt)]).*1
    ≡ₚ screens example_frame_2
  ∧ (∀ screen, screen ∈ screens example_frame_2 →
               condition screen = "pristine" ∨ condition screen = "windowed"
               ∨ condition screen = "obstacle")
  ∧ (∀ screen, screen ∈ screens example_frame_2 →
               condition screen = "pristine" → shows_no_page screen = false)
  ∧ trial example_pages example_frame_2 example_detected = Returned true.
Proof.
  assert (page_detector_detect example_screen_annotations example_pages
            example_frame_2 [(0, tt)] [(1, tt)] []
          = Returned example_detected) as Hdetect.
  { vm_compute. reflexivity. }
  assert (example_screen_annotations <$> ([(0, tt)] ++ [(1, tt)]).*1
          ≡ₚ screens example_frame_2) as Hscreens.
  { reflexivity. }
  assert (∀ screen, screen ∈ screens example_frame_2 →
            condition screen = "pristine" ∨ condition screen = "windowed"
            ∨ condition screen = "obstacle") as Hlegal.
  { intros screen Hin. simpl in Hin.
    apply elem_of_cons in Hin as [->|Hin]; [auto|].
    apply elem_of_cons in Hin as [->|Hin]; [auto|].
    by apply elem_of_nil in Hin. }
  assert (∀ screen, screen ∈ screens example_frame_2 →
            condition screen = "pristine" → shows_no_page screen = false)
    as Hshown.
  { intros screen Hin. simpl in Hin.
    apply elem_of_cons in Hin as [->|Hin]; [reflexivity|].
    apply elem_of_cons in Hin as [->|Hin]; [discriminate|].
    by apply elem_of_nil in Hin. }
  split; [exact Hdetect|]. split; [exact Hscreens|]. split; [exact Hlegal|].
  split; [exact Hshown|].
  exact (page_detector_passes_trial example_screen_annotations example_pages
           example_frame_2 [(0, tt)] [(1, tt)] [] example_detected
           Hdetect Hscreens Hlegal Hshown).
Defined.

Lemma build_pages_lookup_witness :
  NoDup (example_page_key <$> concat example_documents)
  ∧ ∀ document p, document ∈ example_documents → p ∈ document →
      build_pages example_page_key example_documents !! example_page_key p
      = Some p.
Proof.
  assert (NoDup (example_page_key <$> concat example_documents)) as Hnodup.
  { apply (bool_decide_unpack (NoDup _)). vm_compute. exact I. }
  split; [exact Hnodup|].
  exact (proj1 (proj2 (build_pages_lookup example_page_key example_documents))
           Hnodup).
Defined.
